(** * Barrier node of the stream pipeline (barrier.go)

    A shallow embedding of [BarrierNode], [idleBarrier] and
    [periodicBarrier].  Each emitter owns one background goroutine
    ([idleHandler] / [periodicEmitter]); the message path and [Stop] run on
    the consumer's goroutine.  The embedding is an interleaving semantics:
    every atomic statement of either goroutine is one labelled step, and a
    schedule (a list of labels) picks the interleaving, the instants at
    which timers expire, the clock readings and what the output edges
    answer. *)

From Stdlib Require Import ZArith List Bool String Lia.
From stdpp Require Import base option list gmap strings.
Import ListNotations.

Set Implicit Arguments.
Local Open Scope Z_scope.

(** ** Values of the surrounding packages *)

(** [time.Time] as an instant, in nanoseconds relative to the zero value
    [time.Time{}]; [time.Duration] as a signed number of nanoseconds. *)
Definition Time := Z.
Definition Duration := Z.
Definition zeroTime : Time := 0.
Definition Before (t u : Time) : bool := t <? u.

Definition error := string.
Definition GroupID := string.

(** [edge.GroupInfo]: the code only reads [ID]. *)
Record GroupInfo := { ID : GroupID; Tags : list (string * string) }.

(** [edge.PointMeta]: the code only reads [Name()]. *)
Record PointMeta := { Name : string }.

Record BeginBatchMessage := { bb_data : string }.
Record BatchPointMessage := { bp_time : Time; bp_data : string }.
Record EndBatchMessage := { eb_data : string }.
Record BarrierMessage := { br_group : GroupInfo; br_time : Time }.
Record DeleteGroupMessage := { dg_id : GroupID }.
Record PointMessage := { p_time : Time; p_data : string }.

(** [edge.Message]: the message kinds a [ForwardReceiver] is handed. *)
Inductive Message :=
| MBeginBatch (m : BeginBatchMessage)
| MBatchPoint (m : BatchPointMessage)
| MEndBatch (m : EndBatchMessage)
| MBarrier (m : BarrierMessage)
| MDeleteGroup (m : DeleteGroupMessage)
| MPoint (m : PointMessage).

Definition NewBarrierMessage (g : GroupInfo) (t : Time) : Message :=
  MBarrier {| br_group := g; br_time := t |}.

(** ** Outcomes of a statement

    A statement completes, panics, or cannot proceed in the current state
    (the goroutine stays blocked; as a schedule entry it is not enabled). *)
Inductive outcome (A : Type) :=
| Done (a : A)
| Panic (why : string)
| Blocked.
Arguments Panic {A} why.
Arguments Blocked {A}.

#[global] Instance outcome_ret : MRet outcome := fun A a => Done a.
#[global] Instance outcome_bind : MBind outcome := fun A B f o =>
  match o with
  | Done a => f a
  | Panic w => Panic w
  | Blocked => Blocked
  end.
#[global] Instance outcome_fmap : FMap outcome := fun A B f o =>
  match o with
  | Done a => Done (f a)
  | Panic w => Panic w
  | Blocked => Blocked
  end.

(** ** Buffered channels *)
Module chan.
Record t (A : Type) := Make { cap : nat; buf : list A; closed : bool }.

Definition make {A} (n : nat) : t A :=
  {| cap := n; buf := []; closed := false |}.

Definition has_room {A} (c : t A) : bool := (length (buf c) <? cap c)%nat.

(** [close(c)] *)
Definition close {A} (c : t A) : outcome (t A) :=
  if closed c then Panic "close of closed channel"
  else Done {| cap := cap c; buf := buf c; closed := true |}.

(** [c <- v] *)
Definition send {A} (v : A) (c : t A) : outcome (t A) :=
  if closed c then Panic "send on closed channel"
  else if has_room c
       then Done {| cap := cap c; buf := buf c ++ [v]; closed := false |}
       else Blocked.

(** [select { case c <- v: default: }], the runtime's send on a timer
    channel: the value is dropped when the buffer is full. *)
Definition offer {A} (v : A) (c : t A) : t A :=
  if has_room c
  then {| cap := cap c; buf := buf c ++ [v]; closed := closed c |}
  else c.

(** [<-c]: a closed and drained channel yields at once. *)
Definition recv {A} (c : t A) : outcome (t A * option A) :=
  match buf c with
  | v :: rest => Done ({| cap := cap c; buf := rest; closed := closed c |}, Some v)
  | [] => if closed c then Done (c, None) else Blocked
  end.
End chan.

(** ** Handler bodies

    A method of a receiver, as the sequence of its atomic statements: the
    atomic load of [lastT], the statements [I] particular to the receiver,
    and the returned message ([None] for [nil]). *)
Inductive prog (I : Type) :=
| Return (r : option Message)
| LoadLastT (k : Time -> prog I)
| Do (i : I) (k : prog I).
Arguments Return {I} r.
Arguments LoadLastT {I} k.

Section Exec.
Variables (I T : Type).
Variable load : T -> outcome Time.
Variable sem : I -> T -> outcome T.

(** A call that runs without another goroutine in between. *)
Fixpoint exec (c : prog I) (n : T) : outcome (T * option Message) :=
  match c with
  | Return r => Done (n, r)
  | LoadLastT k => t ← load n; exec (k t) n
  | Do i k => n' ← sem i n; exec k n'
  end.
End Exec.

(** ** Schedules *)
Section Run.
Variables (S L : Type).
Variable step : L -> S -> outcome S.

Fixpoint run (s : list L) (p : S) : outcome S :=
  match s with
  | [] => Done p
  | l :: s' => p' ← step l p; run s' p'
  end.
End Run.

(** ** Output edges

    [edge.StatsEdge] and [edge.Forward] are declared outside barrier.go, in
    the edge package.  An edge is kept as the messages the emitter has put
    on it.  [Forward(outs, m)]
    hands [m] to the edges in order, [out.Collect(m)] for each, and returns
    at the first error, so the edges before the failing one have the
    message and those after it have not; [Collect] on a closed edge sends on
    a closed channel and panics.  What the edges do is their answer, an
    input of the step; an answer that names an edge the emitter does not
    have is not enabled. *)
Abbreviation StatsEdge := (list Message).

Inductive answer :=
| Accept                         (* every edge takes the message *)
| Abort (k : nat) (err : error)  (* edge k returns err *)
| ClosedAt (k : nat).            (* edge k is closed *)

Definition Collect (m : Message) (out : StatsEdge) : StatsEdge := out ++ [m].

Definition Forward (verdict : answer) (outs : list StatsEdge) (m : Message)
  : outcome (list StatsEdge * option error) :=
  match verdict with
  | Accept => Done (map (Collect m) outs, None)
  | Abort k err =>
      if (k <? length outs)%nat
      then Done (map (Collect m) (take k outs) ++ drop k outs, Some err)
      else Blocked
  | ClosedAt k =>
      if (k <? length outs)%nat then Panic "send on closed channel"
      else Blocked
  end.

(** [atomic.Value.Load().(time.Time)]: the type assertion panics on a value
    that was never stored. *)
Definition Load (v : option Time) : outcome Time :=
  match v with
  | Some t => Done t
  | None => Panic "interface conversion: interface {} is nil, not time.Time"
  end.

(** [sync.WaitGroup.Done] *)
Definition wg_Done (counter : Z) : outcome Z :=
  if counter - 1 <? 0 then Panic "sync: negative WaitGroup counter"
  else Done (counter - 1).

(** ** The idle emitter *)
Module Idle.

(** [time.Timer]: [armed] while an expiry is pending, [C] its channel,
    holding at most the one expiry nobody has received yet.  The channel of
    a timer is synchronous (Go 1.23): [Reset] and [Stop] discard an expiry
    that was waiting in it, so that no receive after them sees a time of
    the earlier setting. *)
Record Timer := { armed : bool; C : chan.t Time }.

Definition drained (c : chan.t Time) : chan.t Time :=
  {| chan.cap := chan.cap c; chan.buf := []; chan.closed := chan.closed c |}.

Definition NewTimer (d : Duration) : Timer :=
  {| armed := true; C := chan.make 1 |}.
Definition Timer_Reset (d : Duration) (t : Timer) : Timer :=
  {| armed := true; C := drained (C t) |}.
Definition Timer_Stop (t : Timer) : Timer :=
  {| armed := false; C := drained (C t) |}.
(** The runtime delivers the pending expiry. *)
Definition Timer_expire (now : Time) (t : Timer) : outcome Timer :=
  if armed t then Done {| armed := false; C := chan.offer now (C t) |}
  else Blocked.

Record idleBarrier := {
  name : string;
  group : GroupInfo;
  idle : Duration;
  lastT : option Time;
  timer : Timer;
  wg : Z;
  outs : list StatsEdge;
  stopC : chan.t unit
}.

Definition set_lastT v n :=
  {| name := name n; group := group n; idle := idle n; lastT := v;
     timer := timer n; wg := wg n; outs := outs n; stopC := stopC n |}.
Definition set_timer v n :=
  {| name := name n; group := group n; idle := idle n; lastT := lastT n;
     timer := v; wg := wg n; outs := outs n; stopC := stopC n |}.
Definition set_wg v n :=
  {| name := name n; group := group n; idle := idle n; lastT := lastT n;
     timer := timer n; wg := v; outs := outs n; stopC := stopC n |}.
Definition set_outs v n :=
  {| name := name n; group := group n; idle := idle n; lastT := lastT n;
     timer := timer n; wg := wg n; outs := v; stopC := stopC n |}.
Definition set_stopC v n :=
  {| name := name n; group := group n; idle := idle n; lastT := lastT n;
     timer := timer n; wg := wg n; outs := outs n; stopC := v |}.

(** The statements of the methods that touch the emitter. *)
Inductive instr :=
| ResetTimer   (* n.timer.Reset(n.idle) *)
| CloseStopC   (* close(n.stopC) *)
| StopTimer    (* n.timer.Stop() *)
| WaitWg.      (* n.wg.Wait() *)

Definition sem (i : instr) (n : idleBarrier) : outcome idleBarrier :=
  match i with
  | ResetTimer => Done (set_timer (Timer_Reset (idle n) (timer n)) n)
  | CloseStopC => c ← chan.close (stopC n); Done (set_stopC c n)
  | StopTimer => Done (set_timer (Timer_Stop (timer n)) n)
  | WaitWg => if wg n =? 0 then Done n else Blocked
  end.

Definition load (n : idleBarrier) : outcome Time := Load (lastT n).

Definition resetTimer (k : prog instr) : prog instr := Do ResetTimer k.

Definition Stop (k : prog instr) : prog instr :=
  Do CloseStopC (Do StopTimer (Do WaitWg k)).

Definition BeginBatch (m : BeginBatchMessage) : prog instr :=
  Return (Some (MBeginBatch m)).

Definition BatchPoint (m : BatchPointMessage) : prog instr :=
  LoadLastT (fun last =>
    if negb (Before (bp_time m) last)
    then resetTimer (Return (Some (MBatchPoint m)))
    else Return None).

Definition EndBatch (m : EndBatchMessage) : prog instr :=
  Return (Some (MEndBatch m)).

Definition Barrier (m : BarrierMessage) : prog instr :=
  LoadLastT (fun last =>
    if negb (Before (br_time m) last)
    then resetTimer (Return (Some (MBarrier m)))
    else Return None).

Definition DeleteGroup (n : idleBarrier) (m : DeleteGroupMessage) : prog instr :=
  if decide (dg_id m = ID (group n))
  then Stop (Return (Some (MDeleteGroup m)))
  else Return (Some (MDeleteGroup m)).

Definition Point (m : PointMessage) : prog instr :=
  LoadLastT (fun last =>
    if negb (Before (p_time m) last)
    then resetTimer (Return (Some (MPoint m)))
    else Return None).

Definition emitBarrier (nowT : Time) (verdict : answer) (n : idleBarrier)
  : outcome (idleBarrier * option error) :=
  let n1 := set_lastT (Some nowT) n in
  '(o, err) ← Forward verdict (outs n1) (NewBarrierMessage (group n1) nowT);
  Done (set_outs o n1, err).

(** Control points of the goroutine running [idleHandler]:
    at the [select]; before [n.emitBarrier()]; before [n.resetTimer()];
    at [return], with the deferred [n.wg.Done()] still to run; gone. *)
Inductive task := AtSelect | AtEmit | AtReset | AtReturn | Exited.

(** An emitter with its goroutine [bg] and the call in progress on the
    consumer's goroutine [fg].  [replies] lists what finished calls
    returned and [stops] counts the returns of [wg.Wait()], the last
    statement of [Stop]; both are history only. *)
Record proc := {
  obj : idleBarrier;
  bg : task;
  fg : option (prog instr);
  replies : list (option Message);
  stops : nat
}.

Definition set_obj v p :=
  {| obj := v; bg := bg p; fg := fg p; replies := replies p; stops := stops p |}.
Definition set_bg v p :=
  {| obj := obj p; bg := v; fg := fg p; replies := replies p; stops := stops p |}.
Definition set_fg v p :=
  {| obj := obj p; bg := bg p; fg := v; replies := replies p; stops := stops p |}.

(** [Init]: store the zero time, [wg.Add(1)], [go n.idleHandler()]. *)
Definition Init (n : idleBarrier) : proc :=
  {| obj := set_wg (wg n + 1) (set_lastT (Some zeroTime) n);
     bg := AtSelect; fg := None; replies := []; stops := 0 |}.

Definition newIdleBarrier (name : string) (group : GroupInfo) (idle : Duration)
           (outs : list StatsEdge) : proc :=
  Init {| name := name; group := group; idle := idle; lastT := None;
          timer := NewTimer idle; wg := 0; outs := outs;
          stopC := chan.make 1 |}.

(** The dispatch of a [ForwardReceiver] on the kind of the message. *)
Definition receive (n : idleBarrier) (m : Message) : prog instr :=
  match m with
  | MBeginBatch m => BeginBatch m
  | MBatchPoint m => BatchPoint m
  | MEndBatch m => EndBatch m
  | MBarrier m => Barrier m
  | MDeleteGroup m => DeleteGroup n m
  | MPoint m => Point m
  end.

Inductive label :=
| Expire (now : Time)     (* runtime: the armed timer expires *)
| RecvTimer               (* idleHandler: case <-n.timer.C *)
| Emit (nowT : Time) (verdict : answer)  (* idleHandler: n.emitBarrier() *)
| Reset                   (* idleHandler: n.resetTimer() *)
| RecvStop                (* idleHandler: case <-n.stopC: return *)
| WgDone                  (* idleHandler: deferred n.wg.Done() *)
| Recv (m : Message)      (* consumer: the handler of m is called *)
| CallStop                (* consumer: n.Stop() is called *)
| Next.                   (* consumer: next statement of the call *)

(** The consumer's goroutine enters a method; it runs one call at a
    time. *)
Definition call (c : prog instr) (p : proc) : outcome proc :=
  match fg p with
  | None => Done (set_fg (Some c) p)
  | Some _ => Blocked
  end.

Definition next (c : prog instr) (p : proc) : outcome proc :=
  match c with
  | Return r =>
      Done {| obj := obj p; bg := bg p; fg := None;
              replies := replies p ++ [r]; stops := stops p |}
  | LoadLastT k => t ← load (obj p); Done (set_fg (Some (k t)) p)
  | Do i k =>
      n ← sem i (obj p);
      Done {| obj := n; bg := bg p; fg := Some k; replies := replies p;
              stops := match i with WaitWg => S (stops p) | _ => stops p end |}
  end.

Definition step (l : label) (p : proc) : outcome proc :=
  match l, bg p, fg p with
  | Expire now, _, _ =>
      t ← Timer_expire now (timer (obj p));
      Done (set_obj (set_timer t (obj p)) p)
  | RecvTimer, AtSelect, _ =>
      '(c, _) ← chan.recv (C (timer (obj p)));
      Done (set_bg AtEmit
              (set_obj (set_timer {| armed := armed (timer (obj p)); C := c |} (obj p)) p))
  | Emit nowT verdict, AtEmit, _ =>
      '(n, _) ← emitBarrier nowT verdict (obj p);
      Done (set_bg AtReset (set_obj n p))
  | Reset, AtReset, _ =>
      n ← sem ResetTimer (obj p); Done (set_bg AtSelect (set_obj n p))
  | RecvStop, AtSelect, _ =>
      '(c, _) ← chan.recv (stopC (obj p));
      Done (set_bg AtReturn (set_obj (set_stopC c (obj p)) p))
  | WgDone, AtReturn, _ =>
      w ← wg_Done (wg (obj p));
      Done (set_bg Exited (set_obj (set_wg w (obj p)) p))
  | Recv m, _, _ => call (receive (obj p) m) p
  | CallStop, _, _ => call (Stop (Return None)) p
  | Next, _, Some c => next c p
  | _, _, _ => Blocked
  end.

End Idle.

(** ** The periodic emitter *)
Module Periodic.

(** [time.Ticker]: [active] until stopped, [C] its channel, holding at
    most the one tick nobody has received yet; as for a timer, [Stop]
    discards a tick that was waiting in it. *)
Record Ticker := { active : bool; C : chan.t Time }.

(** [time.NewTicker] panics on an interval that is not positive. *)
Definition NewTicker (d : Duration) : outcome Ticker :=
  if d <=? 0 then Panic "non-positive interval for NewTicker"
  else Done {| active := true; C := chan.make 1 |}.
Definition Ticker_Stop (t : Ticker) : Ticker :=
  {| active := false;
     C := {| chan.cap := chan.cap (C t); chan.buf := [];
             chan.closed := chan.closed (C t) |} |}.
(** The runtime delivers a tick; the ticker stays active. *)
Definition Ticker_tick (now : Time) (t : Ticker) : outcome Ticker :=
  if active t then Done {| active := true; C := chan.offer now (C t) |}
  else Blocked.

Record periodicBarrier := {
  name : string;
  group : GroupInfo;
  lastT : option Time;
  ticker : Ticker;
  wg : Z;
  outs : list StatsEdge;
  stopC : chan.t bool
}.

Definition set_lastT v n :=
  {| name := name n; group := group n; lastT := v; ticker := ticker n;
     wg := wg n; outs := outs n; stopC := stopC n |}.
Definition set_ticker v n :=
  {| name := name n; group := group n; lastT := lastT n; ticker := v;
     wg := wg n; outs := outs n; stopC := stopC n |}.
Definition set_wg v n :=
  {| name := name n; group := group n; lastT := lastT n; ticker := ticker n;
     wg := v; outs := outs n; stopC := stopC n |}.
Definition set_outs v n :=
  {| name := name n; group := group n; lastT := lastT n; ticker := ticker n;
     wg := wg n; outs := v; stopC := stopC n |}.
Definition set_stopC v n :=
  {| name := name n; group := group n; lastT := lastT n; ticker := ticker n;
     wg := wg n; outs := outs n; stopC := v |}.

Inductive instr :=
| SendStopC    (* n.stopC <- true *)
| StopTicker   (* n.ticker.Stop() *)
| WaitWg.      (* n.wg.Wait() *)

Definition sem (i : instr) (n : periodicBarrier) : outcome periodicBarrier :=
  match i with
  | SendStopC => c ← chan.send true (stopC n); Done (set_stopC c n)
  | StopTicker => Done (set_ticker (Ticker_Stop (ticker n)) n)
  | WaitWg => if wg n =? 0 then Done n else Blocked
  end.

Definition load (n : periodicBarrier) : outcome Time := Load (lastT n).

Definition Stop (k : prog instr) : prog instr :=
  Do SendStopC (Do StopTicker (Do WaitWg k)).

Definition BeginBatch (m : BeginBatchMessage) : prog instr :=
  Return (Some (MBeginBatch m)).

Definition BatchPoint (m : BatchPointMessage) : prog instr :=
  LoadLastT (fun last =>
    if negb (Before (bp_time m) last)
    then Return (Some (MBatchPoint m))
    else Return None).

Definition EndBatch (m : EndBatchMessage) : prog instr :=
  Return (Some (MEndBatch m)).

Definition Barrier (m : BarrierMessage) : prog instr :=
  LoadLastT (fun last =>
    if negb (Before (br_time m) last)
    then Return (Some (MBarrier m))
    else Return None).

Definition DeleteGroup (n : periodicBarrier) (m : DeleteGroupMessage) : prog instr :=
  if decide (dg_id m = ID (group n))
  then Stop (Return (Some (MDeleteGroup m)))
  else Return (Some (MDeleteGroup m)).

Definition Point (m : PointMessage) : prog instr :=
  LoadLastT (fun last =>
    if negb (Before (p_time m) last)
    then Return (Some (MPoint m))
    else Return None).

Definition emitBarrier (nowT : Time) (verdict : answer) (n : periodicBarrier)
  : outcome (periodicBarrier * option error) :=
  let n1 := set_lastT (Some nowT) n in
  '(o, err) ← Forward verdict (outs n1) (NewBarrierMessage (group n1) nowT);
  Done (set_outs o n1, err).

(** Control points of the goroutine running [periodicEmitter]:
    at the [select]; before [n.emitBarrier()]; at [return], with the
    deferred [n.wg.Done()] still to run; gone. *)
Inductive task := AtSelect | AtEmit | AtReturn | Exited.

Record proc := {
  obj : periodicBarrier;
  bg : task;
  fg : option (prog instr);
  replies : list (option Message);
  stops : nat
}.

Definition set_obj v p :=
  {| obj := v; bg := bg p; fg := fg p; replies := replies p; stops := stops p |}.
Definition set_bg v p :=
  {| obj := obj p; bg := v; fg := fg p; replies := replies p; stops := stops p |}.
Definition set_fg v p :=
  {| obj := obj p; bg := bg p; fg := v; replies := replies p; stops := stops p |}.

(** [Init]: store the zero time, [wg.Add(1)], [go n.periodicEmitter()]. *)
Definition Init (n : periodicBarrier) : proc :=
  {| obj := set_wg (wg n + 1) (set_lastT (Some zeroTime) n);
     bg := AtSelect; fg := None; replies := []; stops := 0 |}.

Definition newPeriodicBarrier (name : string) (group : GroupInfo)
           (period : Duration) (outs : list StatsEdge) : outcome proc :=
  t ← NewTicker period;
  Done (Init {| name := name; group := group; lastT := None; ticker := t;
                wg := 0; outs := outs; stopC := chan.make 1 |}).

Definition receive (n : periodicBarrier) (m : Message) : prog instr :=
  match m with
  | MBeginBatch m => BeginBatch m
  | MBatchPoint m => BatchPoint m
  | MEndBatch m => EndBatch m
  | MBarrier m => Barrier m
  | MDeleteGroup m => DeleteGroup n m
  | MPoint m => Point m
  end.

Inductive label :=
| Tick (now : Time)       (* runtime: the active ticker ticks *)
| RecvTicker              (* periodicEmitter: case <-n.ticker.C *)
| Emit (nowT : Time) (verdict : answer)  (* periodicEmitter: n.emitBarrier() *)
| RecvStop                (* periodicEmitter: case <-n.stopC: return *)
| WgDone                  (* periodicEmitter: deferred n.wg.Done() *)
| Recv (m : Message)      (* consumer: the handler of m is called *)
| CallStop                (* consumer: n.Stop() is called *)
| Next.                   (* consumer: next statement of the call *)

(** The consumer's goroutine enters a method; it runs one call at a
    time. *)
Definition call (c : prog instr) (p : proc) : outcome proc :=
  match fg p with
  | None => Done (set_fg (Some c) p)
  | Some _ => Blocked
  end.

Definition next (c : prog instr) (p : proc) : outcome proc :=
  match c with
  | Return r =>
      Done {| obj := obj p; bg := bg p; fg := None;
              replies := replies p ++ [r]; stops := stops p |}
  | LoadLastT k => t ← load (obj p); Done (set_fg (Some (k t)) p)
  | Do i k =>
      n ← sem i (obj p);
      Done {| obj := n; bg := bg p; fg := Some k; replies := replies p;
              stops := match i with WaitWg => S (stops p) | _ => stops p end |}
  end.

Definition step (l : label) (p : proc) : outcome proc :=
  match l, bg p, fg p with
  | Tick now, _, _ =>
      t ← Ticker_tick now (ticker (obj p));
      Done (set_obj (set_ticker t (obj p)) p)
  | RecvTicker, AtSelect, _ =>
      '(c, _) ← chan.recv (C (ticker (obj p)));
      Done (set_bg AtEmit
              (set_obj (set_ticker {| active := active (ticker (obj p)); C := c |} (obj p)) p))
  | Emit nowT verdict, AtEmit, _ =>
      '(n, _) ← emitBarrier nowT verdict (obj p);
      Done (set_bg AtSelect (set_obj n p))
  | RecvStop, AtSelect, _ =>
      '(c, _) ← chan.recv (stopC (obj p));
      Done (set_bg AtReturn (set_obj (set_stopC c (obj p)) p))
  | WgDone, AtReturn, _ =>
      w ← wg_Done (wg (obj p));
      Done (set_bg Exited (set_obj (set_wg w (obj p)) p))
  | Recv m, _, _ => call (receive (obj p) m) p
  | CallStop, _, _ => call (Stop (Return None)) p
  | Next, _, Some c => next c p
  | _, _, _ => Blocked
  end.

End Periodic.

(** ** Emitters of either kind *)

Inductive emitter :=
| IdleE (p : Idle.proc)
| PeriodicE (p : Periodic.proc).

Inductive elabel :=
| OfIdle (l : Idle.label)
| OfPeriodic (l : Periodic.label).

(** A label of the other kind names no action of this emitter. *)
Definition estep (l : elabel) (e : emitter) : outcome emitter :=
  match l, e with
  | OfIdle l, IdleE p => IdleE <$> Idle.step l p
  | OfPeriodic l, PeriodicE p => PeriodicE <$> Periodic.step l p
  | _, _ => Blocked
  end.

Definition erun : list elabel -> emitter -> outcome emitter := run estep.

Definition group_of (e : emitter) : GroupInfo :=
  match e with
  | IdleE p => Idle.group (Idle.obj p)
  | PeriodicE p => Periodic.group (Periodic.obj p)
  end.

Definition lastT_of (e : emitter) : option Time :=
  match e with
  | IdleE p => Idle.lastT (Idle.obj p)
  | PeriodicE p => Periodic.lastT (Periodic.obj p)
  end.

Definition outs_of (e : emitter) : list StatsEdge :=
  match e with
  | IdleE p => Idle.outs (Idle.obj p)
  | PeriodicE p => Periodic.outs (Periodic.obj p)
  end.

Definition replies_of (e : emitter) : list (option Message) :=
  match e with
  | IdleE p => Idle.replies p
  | PeriodicE p => Periodic.replies p
  end.

Definition stops_of (e : emitter) : nat :=
  match e with
  | IdleE p => Idle.stops p
  | PeriodicE p => Periodic.stops p
  end.

(** The background goroutine has run to its end. *)
Definition exited (e : emitter) : bool :=
  match e with
  | IdleE p => match Idle.bg p with Idle.Exited => true | _ => false end
  | PeriodicE p => match Periodic.bg p with Periodic.Exited => true | _ => false end
  end.

(** A call is in progress on the consumer's goroutine. *)
Definition calling (e : emitter) : bool :=
  match e with
  | IdleE p => bool_decide (is_Some (Idle.fg p))
  | PeriodicE p => bool_decide (is_Some (Periodic.fg p))
  end.

(** The goroutine's next iteration can still see a firing: the idle
    goroutine re-arms its timer itself, the ticker must not have been
    stopped. *)
Definition refires (e : emitter) : bool :=
  match e with
  | IdleE _ => true
  | PeriodicE p => Periodic.active (Periodic.ticker (Periodic.obj p))
  end.

(** The labels of an emitter, by role. *)
Definition recv_of (e : emitter) (m : Message) : elabel :=
  match e with
  | IdleE _ => OfIdle (Idle.Recv m)
  | PeriodicE _ => OfPeriodic (Periodic.Recv m)
  end.

Definition stop_of (e : emitter) : elabel :=
  match e with
  | IdleE _ => OfIdle Idle.CallStop
  | PeriodicE _ => OfPeriodic Periodic.CallStop
  end.

Definition next_of (e : emitter) : elabel :=
  match e with
  | IdleE _ => OfIdle Idle.Next
  | PeriodicE _ => OfPeriodic Periodic.Next
  end.

Definition emit_of (e : emitter) (nowT : Time) (verdict : answer) : elabel :=
  match e with
  | IdleE _ => OfIdle (Idle.Emit nowT verdict)
  | PeriodicE _ => OfPeriodic (Periodic.Emit nowT verdict)
  end.

(** One firing of the timer or ticker at [t], taken by the goroutine, which
    calls [emitBarrier] at [nowT]; the idle goroutine first finishes its
    iteration with [resetTimer]. *)
Definition refire (e : emitter) (t nowT : Time) (verdict : answer) : list elabel :=
  match e with
  | IdleE _ =>
      [OfIdle Idle.Reset; OfIdle (Idle.Expire t); OfIdle Idle.RecvTimer;
       OfIdle (Idle.Emit nowT verdict)]
  | PeriodicE _ =>
      [OfPeriodic (Periodic.Tick t); OfPeriodic Periodic.RecvTicker;
       OfPeriodic (Periodic.Emit nowT verdict)]
  end.

(** The clock reading of a label that runs [emitBarrier]. *)
Definition emission (l : elabel) : option Time :=
  match l with
  | OfIdle (Idle.Emit nowT _) => Some nowT
  | OfPeriodic (Periodic.Emit nowT _) => Some nowT
  | _ => None
  end.

Definition emissions (s : list elabel) : list Time := omap emission s.

(** A label that enters a method on the consumer's goroutine. *)
Definition enters (l : elabel) : bool :=
  match l with
  | OfIdle (Idle.Recv _) | OfIdle Idle.CallStop => true
  | OfPeriodic (Periodic.Recv _) | OfPeriodic Periodic.CallStop => true
  | _ => false
  end.

(** Successive readings of [time.Now()] do not go back, and none lies
    before [t0]. *)
Fixpoint clock_ok (t0 : Time) (readings : list Time) : bool :=
  match readings with
  | [] => true
  | t :: rest => (t0 <=? t) && clock_ok t rest
  end.

(** The handler of [m] run as one uninterrupted call. *)
Definition handle (m : Message) (e : emitter) : outcome (emitter * option Message) :=
  match e with
  | IdleE p =>
      '(n, r) ← exec Idle.load Idle.sem (Idle.receive (Idle.obj p) m) (Idle.obj p);
      Done (IdleE (Idle.set_obj n p), r)
  | PeriodicE p =>
      '(n, r) ← exec Periodic.load Periodic.sem
                  (Periodic.receive (Periodic.obj p) m) (Periodic.obj p);
      Done (PeriodicE (Periodic.set_obj n p), r)
  end.

(** [Stop] entered with [r] as the value its caller returns afterwards. *)
Definition call_Stop (r : option Message) (e : emitter) : outcome emitter :=
  match e with
  | IdleE p => IdleE <$> Idle.call (Idle.Stop (Return r)) p
  | PeriodicE p => PeriodicE <$> Periodic.call (Periodic.Stop (Return r)) p
  end.

(** The time carried by the messages the handlers compare with [lastT]. *)
Definition timed (m : Message) : option Time :=
  match m with
  | MBatchPoint m => Some (bp_time m)
  | MBarrier m => Some (br_time m)
  | MPoint m => Some (p_time m)
  | _ => None
  end.

(** An emitter as its constructor returns it. *)
Inductive constructed : emitter -> Prop :=
| constructed_idle name group idle outs :
    constructed (IdleE (Idle.newIdleBarrier name group idle outs))
| constructed_periodic name group period outs p :
    Periodic.newPeriodicBarrier name group period outs = Done p ->
    constructed (PeriodicE p).

(** ** The node *)

Module pipeline.
(** [pipeline.BarrierNode]: the two settings the node reads. *)
Record BarrierNode := { Idle : Duration; Period : Duration }.
End pipeline.

Inductive result (A : Type) :=
| Ok (a : A)
| Err (e : error).
Arguments Err {A} e.

Definition ExecutingTask := string.

(** Modelled from the spec: [NodeDiagnostic] is declared outside barrier.go;
    it is the handle through which a node reports and logs, kept here as
    the list of the errors reported through it. *)
Definition NodeDiagnostic := list error.

(** The embedded [node]: the fields the constructor sets, and the output
    edges [outs] wired in afterwards. *)
Record node := {
  Node : pipeline.BarrierNode;
  et : ExecutingTask;
  diag : NodeDiagnostic;
  outs : list StatsEdge
}.

(** A stop function is the [Stop] method of the emitter at a heap address. *)
Record BarrierNode := {
  base : node;
  b : pipeline.BarrierNode;
  barrierStopper : gmap GroupID nat
}.

Definition newBarrierNode (et : ExecutingTask) (n : pipeline.BarrierNode)
           (d : NodeDiagnostic) : result BarrierNode :=
  if (pipeline.Idle n =? 0) && (pipeline.Period n =? 0)
  then Err "barrier node must have either a non zero idle or a non zero period"
  else Ok {| base := {| Node := n; et := et; diag := d; outs := [] |};
             b := n;
             barrierStopper := ∅ |}.

(** The node, the emitters it has created (addressed by position), and the
    stop functions [stopBarrierEmitter] has still to call once the consumer
    has returned. *)
Record world := {
  self : BarrierNode;
  heap : list emitter;
  stopping : option (list nat)
}.

Definition start (n : BarrierNode) : world :=
  {| self := n; heap := []; stopping := None |}.

Definition alloc (e : emitter) (w : world) : world * nat :=
  ({| self := self w; heap := heap w ++ [e]; stopping := stopping w |},
   length (heap w)).

(** Returns the receiver and the stop function, both bound to the new
    emitter. *)
Definition newBarrier (w : world) (group : GroupInfo) (first : PointMeta)
  : outcome (result (world * nat * nat)) :=
  let n := self w in
  if negb (pipeline.Idle (b n) =? 0) then
    let idleBarrier :=
      Idle.newIdleBarrier (Name first) group (pipeline.Idle (b n)) (outs (base n)) in
    let '(w', r) := alloc (IdleE idleBarrier) w in
    Done (Ok (w', r, r))
  else if negb (pipeline.Period (b n) =? 0) then
    periodicBarrier ← Periodic.newPeriodicBarrier
                        (Name first) group (pipeline.Period (b n)) (outs (base n));
    let '(w', r) := alloc (PeriodicE periodicBarrier) w in
    Done (Ok (w', r, r))
  else
    Done (Err "unreachable code, barrier node should have non-zero idle or non-zero period").

Definition NewGroup (w : world) (group : GroupInfo) (first : PointMeta)
  : outcome (result (world * nat)) :=
  res ← newBarrier w group first;
  match res with
  | Err err => Done (Err err)
  | Ok (w', r, stopF) =>
      let n := self w' in
      Done (Ok ({| self := {| base := base n; b := b n;
                              barrierStopper := <[ID group := stopF]> (barrierStopper n) |};
                   heap := heap w'; stopping := stopping w' |}, r))
  end.

(** The stop functions in the order [range n.barrierStopper] visits them;
    Go leaves the order open, the map's own order stands for it. *)
Definition stoppers (n : BarrierNode) : list nat :=
  (map_to_list (barrierStopper n)).*2.

(** No call is in progress on the consumer's goroutine. *)
Definition quiescent (w : world) : bool :=
  forallb (fun e => negb (calling e)) (heap w).

Definition at_emitter (r : nat) (f : emitter -> outcome emitter) (w : world)
  : outcome world :=
  match heap w !! r with
  | Some e =>
      e' ← f e;
      Done {| self := self w; heap := <[r := e']> (heap w); stopping := stopping w |}
  | None => Blocked
  end.

Inductive wlabel :=
| Group (group : GroupInfo) (first : PointMeta)
    (* consumer: first message of a group, n.NewGroup *)
| Deliver (r : nat) (m : Message)
    (* consumer: m is handed to receiver r *)
| Sched (r : nat) (l : elabel)
    (* emitter r: its goroutine, its timer, or the next statement of its call *)
| ConsumeEnd
    (* runBarrierEmitter: Consume returns, the deferred stopBarrierEmitter starts *)
| StopNext.
    (* stopBarrierEmitter: stopF() of the next entry *)

Definition begin_stopping (w : world) : world :=
  {| self := self w; heap := heap w; stopping := Some (stoppers (self w)) |}.

Definition wstep (l : wlabel) (w : world) : outcome world :=
  match l with
  | Group group first =>
      if bool_decide (stopping w = None) && quiescent w then
        res ← NewGroup w group first;
        match res with
        | Ok (w', _) => Done w'
        | Err _ => Done (begin_stopping w)
        end
      else Blocked
  | Deliver r m =>
      if bool_decide (stopping w = None) && quiescent w
      then at_emitter r (fun e => estep (recv_of e m) e) w
      else Blocked
  | Sched r l =>
      if enters l then Blocked else at_emitter r (estep l) w
  | ConsumeEnd =>
      if bool_decide (stopping w = None) && quiescent w
      then Done (begin_stopping w)
      else Blocked
  | StopNext =>
      match stopping w with
      | Some (r :: rest) =>
          if quiescent w then
            at_emitter r (fun e => estep (stop_of e) e)
              {| self := self w; heap := heap w; stopping := Some rest |}
          else Blocked
      | _ => Blocked
      end
  end.

Definition wrun : list wlabel -> world -> outcome world := run wstep.

(** ** Invariants and proof automation *)

(** Case analysis of one step: unfold the step function, split on every
    scrutinee, and clean up the equations. *)
Ltac unfold_outcome :=
  unfold mbind, outcome_bind, fmap, outcome_fmap, mret, outcome_ret in *.

Ltac step_cases :=
  unfold_outcome;
  repeat (case_match; simplify_eq/=; unfold_outcome);
  simplify_eq/=.

(** What holds of an idle emitter from its construction on: the wait group
    counts the goroutine until it has run [wg.Done()]; a wait that has
    returned found the goroutine gone; [lastT] holds a time; the timer's
    channel has one slot. *)
Definition idle_inv (p : Idle.proc) : Prop :=
  Idle.wg (Idle.obj p) = (match Idle.bg p with Idle.Exited => 0 | _ => 1 end)
  /\ (Idle.stops p <> 0%nat -> Idle.bg p = Idle.Exited)
  /\ is_Some (Idle.lastT (Idle.obj p))
  /\ chan.cap (Idle.C (Idle.timer (Idle.obj p))) = 1%nat.

(** The same of a periodic emitter and its ticker. *)
Definition periodic_inv (p : Periodic.proc) : Prop :=
  Periodic.wg (Periodic.obj p)
    = (match Periodic.bg p with Periodic.Exited => 0 | _ => 1 end)
  /\ (Periodic.stops p <> 0%nat -> Periodic.bg p = Periodic.Exited)
  /\ is_Some (Periodic.lastT (Periodic.obj p))
  /\ chan.cap (Periodic.C (Periodic.ticker (Periodic.obj p))) = 1%nat.

Definition einv (e : emitter) : Prop :=
  match e with
  | IdleE p => idle_inv p
  | PeriodicE p => periodic_inv p
  end.

(** [Stop] followed by [return r], entered when the replies were [R] and
    [N] waits had returned: the call is at one of its three statements, or
    at its [return] with the wait over, or it has returned [r]. *)
Definition idle_stopping (r : option Message) (R : list (option Message))
           (N : nat) (p : Idle.proc) : Prop :=
  (Idle.replies p = R /\ Idle.stops p = N
   /\ (Idle.fg p = Some (Idle.Stop (Return r))
       \/ Idle.fg p = Some (Do Idle.StopTimer (Do Idle.WaitWg (Return r)))
       \/ Idle.fg p = Some (Do Idle.WaitWg (Return r))))
  \/ (Idle.replies p = R /\ (N < Idle.stops p)%nat
      /\ Idle.fg p = Some (Return r))
  \/ ((exists rest, Idle.replies p = R ++ r :: rest) /\ (N < Idle.stops p)%nat).

Definition periodic_stopping (r : option Message) (R : list (option Message))
           (N : nat) (p : Periodic.proc) : Prop :=
  (Periodic.replies p = R /\ Periodic.stops p = N
   /\ (Periodic.fg p = Some (Periodic.Stop (Return r))
       \/ Periodic.fg p = Some (Do Periodic.StopTicker (Do Periodic.WaitWg (Return r)))
       \/ Periodic.fg p = Some (Do Periodic.WaitWg (Return r))))
  \/ (Periodic.replies p = R /\ (N < Periodic.stops p)%nat
      /\ Periodic.fg p = Some (Return r))
  \/ ((exists rest, Periodic.replies p = R ++ r :: rest)
      /\ (N < Periodic.stops p)%nat).

Definition estopping (r : option Message) (R : list (option Message))
           (N : nat) (e : emitter) : Prop :=
  match e with
  | IdleE p => idle_stopping r R N p
  | PeriodicE p => periodic_stopping r R N p
  end.

(** In a method body, [wg.Wait()] comes only after [close(n.stopC)]. *)
Fixpoint waits_closed (closed : bool) (c : prog Idle.instr) : Prop :=
  match c with
  | Return _ => True
  | LoadLastT k => forall t, waits_closed closed (k t)
  | Do Idle.CloseStopC k => waits_closed true k
  | Do Idle.WaitWg k => closed = true /\ waits_closed closed k
  | Do _ k => waits_closed closed k
  end.

(** The call in progress waits only on a closed [stopC], and a wait that
    has returned left [stopC] closed. *)
Definition idle_closed_inv (p : Idle.proc) : Prop :=
  (forall c, Idle.fg p = Some c ->
             waits_closed (chan.closed (Idle.stopC (Idle.obj p))) c)
  /\ (Idle.stops p <> 0%nat -> chan.closed (Idle.stopC (Idle.obj p)) = true).

Definition eclosed (e : emitter) : Prop :=
  match e with
  | IdleE p => idle_closed_inv p
  | PeriodicE _ => True
  end.

(** ** Further observations of a schedule and of an emitter *)

(** Edge [k] takes the message of a [Forward] with this answer. *)
Definition reaches (k : nat) (verdict : answer) : bool :=
  match verdict with
  | Accept => true
  | Abort j _ => (k <? j)%nat
  | ClosedAt _ => false
  end.

(** The clock reading of an [emitBarrier] whose barrier edge [k] took. *)
Definition delivered (k : nat) (l : elabel) : option Time :=
  match l with
  | OfIdle (Idle.Emit nowT verdict) =>
      if reaches k verdict then Some nowT else None
  | OfPeriodic (Periodic.Emit nowT verdict) =>
      if reaches k verdict then Some nowT else None
  | _ => None
  end.

(** A firing of the timer or of the ticker. *)
Definition firing (l : elabel) : bool :=
  match l with
  | OfIdle (Idle.Expire _) | OfPeriodic (Periodic.Tick _) => true
  | _ => false
  end.

Definition firings (s : list elabel) : nat := length (List.filter firing s).

(** Firings the goroutine has still to answer: those waiting in the
    channel, and the one it has received and not yet emitted for. *)
Definition owed (e : emitter) : nat :=
  match e with
  | IdleE p =>
      (length (chan.buf (Idle.C (Idle.timer (Idle.obj p))))
       + match Idle.bg p with Idle.AtEmit => 1 | _ => 0 end)%nat
  | PeriodicE p =>
      (length (chan.buf (Periodic.C (Periodic.ticker (Periodic.obj p))))
       + match Periodic.bg p with Periodic.AtEmit => 1 | _ => 0 end)%nat
  end.

(** The emitter's object and the control point of its goroutine: what a
    run leaves behind, the record of the replies apart. *)
Definition core (e : emitter)
  : Idle.idleBarrier * Idle.task + Periodic.periodicBarrier * Periodic.task :=
  match e with
  | IdleE p => inl (Idle.obj p, Idle.bg p)
  | PeriodicE p => inr (Periodic.obj p, Periodic.bg p)
  end.

(** A deletion message addressed to the emitter's own group. *)
Definition own_delete (e : emitter) (m : Message) : bool :=
  match m with
  | MDeleteGroup d => bool_decide (dg_id d = ID (group_of e))
  | _ => false
  end.

(** Sample values for the examples. *)
Definition groupA : GroupInfo := {| ID := "host=a"; Tags := [("host", "a")] |}.

Definition idleP : Idle.proc := Idle.newIdleBarrier "cpu" groupA 5 [[]; []].

Definition periodicP : Periodic.proc :=
  Periodic.Init
    {| Periodic.name := "cpu"; Periodic.group := groupA;
       Periodic.lastT := None;
       Periodic.ticker := {| Periodic.active := true; Periodic.C := chan.make 1 |};
       Periodic.wg := 0; Periodic.outs := [[]; []]; Periodic.stopC := chan.make 1 |}.

Definition idleA : emitter := IdleE idleP.

Definition periodicA : emitter := PeriodicE periodicP.

(** The state a schedule leads to (the start state where it does not run). *)
Definition after (s : list elabel) (e : emitter) : emitter :=
  match erun s e with
  | Done e' => e'
  | _ => e
  end.

Definition idle_after (s : list Idle.label) (p : Idle.proc) : Idle.proc :=
  match run Idle.step s p with
  | Done p' => p'
  | _ => p
  end.

(** The channel of the timer or ticker is one the runtime never closes. *)
Definition timer_open (e : emitter) : Prop :=
  match e with
  | IdleE p => chan.closed (Idle.C (Idle.timer (Idle.obj p))) = false
  | PeriodicE p => chan.closed (Periodic.C (Periodic.ticker (Periodic.obj p))) = false
  end.

(** Nothing closes the [stopC] of a periodic emitter. *)
Definition stopC_unclosed (e : emitter) : Prop :=
  match e with
  | IdleE _ => True
  | PeriodicE p => chan.closed (Periodic.stopC (Periodic.obj p)) = false
  end.

(** An emitter no [Stop] has reached yet: the idle one has its [stopC]
    open; the periodic one has nothing in [stopC] and its goroutine is in
    its loop. *)
Definition unstopped (e : emitter) : bool :=
  match e with
  | IdleE p => negb (chan.closed (Idle.stopC (Idle.obj p)))
  | PeriodicE p =>
      bool_decide (chan.buf (Periodic.stopC (Periodic.obj p)) = [])
      && match Periodic.bg p with
         | Periodic.AtSelect | Periodic.AtEmit => true
         | _ => false
         end
  end.

(** In a method body of the idle emitter, [n.timer.Stop()] comes only after
    [close(n.stopC)]. *)
Fixpoint timer_stop_closed (closed : bool) (c : prog Idle.instr) : Prop :=
  match c with
  | Return _ => True
  | LoadLastT k => forall t, timer_stop_closed closed (k t)
  | Do Idle.CloseStopC k => timer_stop_closed true k
  | Do Idle.StopTimer k => closed = true /\ timer_stop_closed closed k
  | Do _ k => timer_stop_closed closed k
  end.

(** Nothing is ever sent on the idle emitter's [stopC]; its goroutine
    leaves the loop only once [stopC] is closed; the timer is stopped only
    after that; and until then a firing is ahead: the timer is armed, or an
    expiry waits in its channel, or the goroutine is on its way to
    re-arming it. *)
Definition idle_stop_inv (p : Idle.proc) : Prop :=
  chan.buf (Idle.stopC (Idle.obj p)) = []
  /\ (forall c, Idle.fg p = Some c ->
        timer_stop_closed (chan.closed (Idle.stopC (Idle.obj p))) c)
  /\ (chan.closed (Idle.stopC (Idle.obj p)) = false ->
      Idle.bg p <> Idle.AtReturn /\ Idle.bg p <> Idle.Exited
      /\ (Idle.bg p = Idle.AtSelect ->
          Idle.armed (Idle.timer (Idle.obj p)) = true
          \/ chan.buf (Idle.C (Idle.timer (Idle.obj p))) <> [])).

(** The bodies a call on a periodic emitter can be at. *)
Definition periodic_body (c : prog Periodic.instr) : Prop :=
  match c with
  | Return _ => True
  | LoadLastT k => forall t, exists r, k t = Return r
  | Do Periodic.SendStopC
       (Do Periodic.StopTicker (Do Periodic.WaitWg (Return _))) => True
  | Do Periodic.StopTicker (Do Periodic.WaitWg (Return _)) => True
  | Do Periodic.WaitWg (Return _) => True
  | _ => False
  end.

(** A call that has sent on [stopC] and whose wait has not returned. *)
Definition unwaited (c : option (prog Periodic.instr)) : nat :=
  match c with
  | Some (Do Periodic.StopTicker _) | Some (Do Periodic.WaitWg _) => 1
  | _ => 0
  end.

Arguments unwaited : simpl never.

(** The goroutine has taken a value from [stopC]. *)
Definition received (t : Periodic.task) : nat :=
  match t with
  | Periodic.AtReturn | Periodic.Exited => 1
  | _ => 0
  end.

(** The sends on the periodic emitter's [stopC] are accounted for: those
    still in the channel and the one the goroutine took are those of the
    stops that returned and of the one in progress.  The ticker is stopped
    only by a stop that has sent. *)
Definition periodic_stop_inv (p : Periodic.proc) : Prop :=
  chan.closed (Periodic.stopC (Periodic.obj p)) = false
  /\ chan.cap (Periodic.stopC (Periodic.obj p)) = 1%nat
  /\ (forall c, Periodic.fg p = Some c -> periodic_body c)
  /\ (length (chan.buf (Periodic.stopC (Periodic.obj p))) + received (Periodic.bg p)
      = Periodic.stops p + unwaited (Periodic.fg p))%nat
  /\ (Periodic.active (Periodic.ticker (Periodic.obj p)) = true
      \/ unwaited (Periodic.fg p) = 1%nat \/ Periodic.stops p <> 0%nat).

Definition estop_inv (e : emitter) : Prop :=
  match e with
  | IdleE p => idle_stop_inv p /\ idle_inv p
  | PeriodicE p => periodic_stop_inv p /\ periodic_inv p
  end.

(** A periodic emitter stuck in its third [Stop]: the call is at its send,
    [stopC] is full and nobody is left to receive. *)
Definition third_stop_stuck (R : list (option Message)) (p : Periodic.proc) : Prop :=
  Periodic.fg p = Some (Periodic.Stop (Return None))
  /\ Periodic.bg p = Periodic.Exited
  /\ length (chan.buf (Periodic.stopC (Periodic.obj p))) = 1%nat
  /\ chan.cap (Periodic.stopC (Periodic.obj p)) = 1%nat
  /\ chan.closed (Periodic.stopC (Periodic.obj p)) = false
  /\ Periodic.stops p = 2%nat
  /\ Periodic.replies p = R.

(** ** Observations of the node *)

(** Every registered stop function is that of an emitter in the heap, of
    the group it is registered under. *)
Definition registered_ok (w : world) : Prop :=
  forall id r, barrierStopper (self w) !! id = Some r ->
               exists e, heap w !! r = Some e /\ ID (group_of e) = id.

Definition is_idle (e : emitter) : bool :=
  match e with
  | IdleE _ => true
  | PeriodicE _ => false
  end.

(** The node after a schedule, where the schedule can be run. *)
Definition wafter (s : list wlabel) (w : world) : world :=
  match wrun s w with
  | Done w' => w'
  | _ => w
  end.

Definition nodeA (idle period : Duration) : BarrierNode :=
  let cfg := {| pipeline.Idle := idle; pipeline.Period := period |} in
  {| base := {| Node := cfg; et := "task"; diag := []; outs := [] |};
     b := cfg; barrierStopper := ∅ |}.

(** The task wires the output edges into the embedded [node] before the
    node runs ([addChild], outside barrier.go). *)
Definition link (es : list StatsEdge) (n : BarrierNode) : BarrierNode :=
  {| base := {| Node := Node (base n); et := et (base n);
                diag := diag (base n); outs := es |};
     b := b n; barrierStopper := barrierStopper n |}.

(** Every emitter whose stop function is registered has not been stopped:
    no [DeleteGroup] reached it since it was registered. *)
Definition registered_unstopped (w : world) : bool :=
  forallb (fun r => match heap w !! r with
                    | Some e => unstopped e
                    | None => true
                    end)
          (stoppers (self w)).

(** * Properties *)

Section RunFacts.
Variables (S L : Type).
Variable step : L -> S -> outcome S.

Lemma run_cons_Done l s p q :
  run step (l :: s) p = Done q ->
  exists m, step l p = Done m /\ run step s m = Done q.
Proof.
  simpl. destruct (step l p) as [m| |]; simpl; [eauto|done|done].
Qed.

(** A property kept by every step holds after every schedule that runs. *)
Lemma run_invariant (P : S -> Prop) :
  (forall l p p', P p -> step l p = Done p' -> P p') ->
  forall s p p', P p -> run step s p = Done p' -> P p'.
Proof.
  intros Hstep s. induction s as [|l s IH]; intros p p' HP; simpl.
  - intros [= <-]. exact HP.
  - destruct (step l p) as [q| |] eqn:E; simpl; [|done|done].
    intros Hrun. eapply IH; [|exact Hrun]. eapply Hstep; eauto.
Qed.
End RunFacts.

Lemma idle_inv_new name group idle outs :
  idle_inv (Idle.newIdleBarrier name group idle outs).
Proof. repeat split; simpl; eauto; done. Qed.

Lemma idle_inv_step l p p' :
  idle_inv p -> Idle.step l p = Done p' -> idle_inv p'.
Proof.
  intros (Hwg & Hst & HT & Hcap) Hs.
  unfold Idle.step, Idle.next, Idle.call, Idle.sem, Idle.load, Load,
    Idle.Timer_expire, Idle.emitBarrier, Forward, chan.recv, chan.close,
    chan.offer, wg_Done in Hs.
  destruct l; step_cases; unfold idle_inv; simpl in *.
  all: repeat match goal with H : Idle.bg _ = _ |- _ => rewrite H in * end.
  all: intuition (eauto; try lia; try congruence).
Qed.

(** What one step does to [lastT] and to the edges: only [emitBarrier]
    writes them. *)
Lemma idle_step_effect l p p' :
  Idle.step l p = Done p' ->
  match l with
  | Idle.Emit nowT verdict =>
      Idle.bg p = Idle.AtEmit /\ Idle.bg p' = Idle.AtReset
      /\ Idle.lastT (Idle.obj p') = Some nowT
      /\ exists err,
           Forward verdict (Idle.outs (Idle.obj p))
             (NewBarrierMessage (Idle.group (Idle.obj p)) nowT)
           = Done (Idle.outs (Idle.obj p'), err)
  | _ => Idle.lastT (Idle.obj p') = Idle.lastT (Idle.obj p)
         /\ Idle.outs (Idle.obj p') = Idle.outs (Idle.obj p)
  end
  /\ Idle.group (Idle.obj p') = Idle.group (Idle.obj p)
  /\ (Idle.stops p <= Idle.stops p')%nat
  /\ (Idle.bg p = Idle.Exited -> Idle.bg p' = Idle.Exited).
Proof.
  intros Hs.
  unfold Idle.step, Idle.next, Idle.call, Idle.sem, Idle.load, Load,
    Idle.Timer_expire, Idle.emitBarrier, chan.recv, chan.close,
    chan.offer, wg_Done in Hs.
  destruct l; step_cases; repeat split; eauto; try lia; try congruence.
Qed.

Lemma periodic_inv_new name group period outs p :
  Periodic.newPeriodicBarrier name group period outs = Done p ->
  periodic_inv p.
Proof.
  unfold Periodic.newPeriodicBarrier, Periodic.NewTicker.
  intros Hp. step_cases. repeat split; simpl; eauto; done.
Qed.

Lemma periodic_inv_step l p p' :
  periodic_inv p -> Periodic.step l p = Done p' -> periodic_inv p'.
Proof.
  intros (Hwg & Hst & HT & Hcap) Hs.
  unfold Periodic.step, Periodic.next, Periodic.call, Periodic.sem,
    Periodic.load, Load, Periodic.Ticker_tick, Periodic.emitBarrier, Forward,
    chan.recv, chan.send, chan.offer, wg_Done in Hs.
  destruct l; step_cases; unfold periodic_inv; simpl in *.
  all: repeat match goal with H : Periodic.bg _ = _ |- _ => rewrite H in * end.
  all: intuition (eauto; try lia; try congruence).
Qed.

Lemma periodic_step_effect l p p' :
  Periodic.step l p = Done p' ->
  match l with
  | Periodic.Emit nowT verdict =>
      Periodic.bg p = Periodic.AtEmit /\ Periodic.bg p' = Periodic.AtSelect
      /\ Periodic.lastT (Periodic.obj p') = Some nowT
      /\ exists err,
           Forward verdict (Periodic.outs (Periodic.obj p))
             (NewBarrierMessage (Periodic.group (Periodic.obj p)) nowT)
           = Done (Periodic.outs (Periodic.obj p'), err)
  | _ => Periodic.lastT (Periodic.obj p') = Periodic.lastT (Periodic.obj p)
         /\ Periodic.outs (Periodic.obj p') = Periodic.outs (Periodic.obj p)
  end
  /\ Periodic.group (Periodic.obj p') = Periodic.group (Periodic.obj p)
  /\ (Periodic.stops p <= Periodic.stops p')%nat
  /\ (Periodic.bg p = Periodic.Exited -> Periodic.bg p' = Periodic.Exited).
Proof.
  intros Hs.
  unfold Periodic.step, Periodic.next, Periodic.call, Periodic.sem,
    Periodic.load, Load, Periodic.Ticker_tick, Periodic.emitBarrier,
    chan.recv, chan.send, chan.offer, wg_Done in Hs.
  destruct l; step_cases; repeat split; eauto; try lia; try congruence.
Qed.

(** *** Emitters of either kind *)

Lemma einv_constructed e : constructed e -> einv e.
Proof.
  destruct 1; simpl; eauto using idle_inv_new, periodic_inv_new.
Qed.

Lemma einv_step l e e' : einv e -> estep l e = Done e' -> einv e'.
Proof.
  destruct l as [l|l], e as [p|p]; simpl; try done.
  - destruct (Idle.step l p) as [q| |] eqn:E; simpl; try done.
    intros Hi [= <-]. simpl. eauto using idle_inv_step.
  - destruct (Periodic.step l p) as [q| |] eqn:E; simpl; try done.
    intros Hi [= <-]. simpl. eauto using periodic_inv_step.
Qed.

Lemma einv_run s e e' : einv e -> erun s e = Done e' -> einv e'.
Proof. apply run_invariant. intros l p p'. apply einv_step. Qed.

(** Both kinds of emitters stay of their kind, keep their group, and only
    [emitBarrier] writes [lastT] and the edges. *)
Lemma estep_effect l e e' :
  estep l e = Done e' ->
  lastT_of e' = match emission l with
                | Some nowT => Some nowT
                | None => lastT_of e
                end
  /\ (emission l = None -> outs_of e' = outs_of e)
  /\ (emission l <> None -> exited e = false)
  /\ group_of e' = group_of e
  /\ (stops_of e <= stops_of e')%nat
  /\ (exited e = true -> exited e' = true).
Proof.
  destruct l as [l|l], e as [p|p]; simpl; try done.
  - destruct (Idle.step l p) as [q| |] eqn:E; simpl; try done.
    intros [= <-]. apply idle_step_effect in E as (E & Hg & Hs & Hx).
    assert (Hx' : exited (IdleE p) = true -> exited (IdleE q) = true).
    { simpl. destruct (Idle.bg p); try done. rewrite Hx; done. }
    destruct l; simpl in *; intuition (try congruence).
    all: destruct (Idle.bg p); congruence.
  - destruct (Periodic.step l p) as [q| |] eqn:E; simpl; try done.
    intros [= <-]. apply periodic_step_effect in E as (E & Hg & Hs & Hx).
    assert (Hx' : exited (PeriodicE p) = true -> exited (PeriodicE q) = true).
    { simpl. destruct (Periodic.bg p); try done. rewrite Hx; done. }
    destruct l; simpl in *; intuition (try congruence).
    all: destruct (Periodic.bg p); congruence.
Qed.

(** Once [wg.Wait()] has returned, the goroutine is gone. *)
Lemma stops_exited e : einv e -> stops_of e <> 0%nat -> exited e = true.
Proof.
  destruct e as [p|p]; simpl; intros (_ & Hst & _) Hn;
    rewrite (Hst Hn); reflexivity.
Qed.

(** A gone goroutine emits nothing: whatever runs afterwards leaves [lastT]
    and the edges as they are and contains no [emitBarrier]. *)
Lemma exited_silent s : forall e e',
  exited e = true -> erun s e = Done e' ->
  exited e' = true /\ lastT_of e' = lastT_of e /\ outs_of e' = outs_of e
  /\ emissions s = [].
Proof.
  induction s as [|l s IH]; intros e e' Hx Hr.
  - simpl in Hr. injection Hr as <-. auto.
  - apply run_cons_Done in Hr as (m & Hl & Hr).
    destruct (estep_effect _ _ Hl) as (HT & Ho & Hem & _ & _ & Hx').
    destruct (emission l) as [t|] eqn:El.
    + rewrite Hem in Hx; [done|congruence].
    + destruct (IH _ _ (Hx' Hx) Hr) as (? & ? & ? & ?).
      unfold emissions in *. simpl. rewrite El.
      repeat split; auto; try congruence. rewrite <- Ho; auto.
Qed.

(** *** A call run without interruption *)

Lemma erun_idle s : forall p,
  erun (map OfIdle s) (IdleE p) = IdleE <$> run Idle.step s p.
Proof.
  induction s as [|l s IH]; intros p; simpl; [reflexivity|].
  destruct (Idle.step l p) as [q| |]; simpl; auto.
Qed.

Lemma erun_periodic s : forall p,
  erun (map OfPeriodic s) (PeriodicE p) = PeriodicE <$> run Periodic.step s p.
Proof.
  induction s as [|l s IH]; intros p; simpl; [reflexivity|].
  destruct (Periodic.step l p) as [q| |]; simpl; auto.
Qed.

Lemma idle_exec_schedule c : forall p n' r,
  Idle.fg p = Some c ->
  exec Idle.load Idle.sem c (Idle.obj p) = Done (n', r) ->
  exists k p',
    run Idle.step (repeat Idle.Next k) p = Done p'
    /\ Idle.obj p' = n' /\ Idle.fg p' = None
    /\ Idle.replies p' = Idle.replies p ++ [r]
    /\ Idle.bg p' = Idle.bg p.
Proof.
  induction c as [r0|k IH|i c IH]; intros p n' r Hfg Hex; simpl in Hex.
  - injection Hex as <- <-. exists 1%nat. eexists. simpl.
    rewrite Hfg. simpl. unfold_outcome. simpl. eauto.
  - destruct (Idle.load (Idle.obj p)) as [t| |] eqn:El; simpl in Hex; try done.
    destruct (IH t (Idle.set_fg (Some (k t)) p) n' r eq_refl Hex)
      as (j & p' & Hrun & Hp').
    exists (S j), p'. split; [|exact Hp'].
    simpl. rewrite Hfg. simpl. rewrite El. exact Hrun.
  - destruct (Idle.sem i (Idle.obj p)) as [n1| |] eqn:Es; simpl in Hex; try done.
    destruct (IH {| Idle.obj := n1; Idle.bg := Idle.bg p; Idle.fg := Some c;
                    Idle.replies := Idle.replies p;
                    Idle.stops := match i with
                                  | Idle.WaitWg => S (Idle.stops p)
                                  | _ => Idle.stops p
                                  end |} n' r eq_refl Hex)
      as (j & p' & Hrun & Hp').
    exists (S j), p'. split; [|exact Hp'].
    simpl. rewrite Hfg. simpl. rewrite Es. exact Hrun.
Qed.

Lemma periodic_exec_schedule c : forall p n' r,
  Periodic.fg p = Some c ->
  exec Periodic.load Periodic.sem c (Periodic.obj p) = Done (n', r) ->
  exists k p',
    run Periodic.step (repeat Periodic.Next k) p = Done p'
    /\ Periodic.obj p' = n' /\ Periodic.fg p' = None
    /\ Periodic.replies p' = Periodic.replies p ++ [r]
    /\ Periodic.bg p' = Periodic.bg p.
Proof.
  induction c as [r0|k IH|i c IH]; intros p n' r Hfg Hex; simpl in Hex.
  - injection Hex as <- <-. exists 1%nat. eexists. simpl.
    rewrite Hfg. simpl. unfold_outcome. simpl. eauto.
  - destruct (Periodic.load (Periodic.obj p)) as [t| |] eqn:El;
      simpl in Hex; try done.
    destruct (IH t (Periodic.set_fg (Some (k t)) p) n' r eq_refl Hex)
      as (j & p' & Hrun & Hp').
    exists (S j), p'. split; [|exact Hp'].
    simpl. rewrite Hfg. simpl. rewrite El. exact Hrun.
  - destruct (Periodic.sem i (Periodic.obj p)) as [n1| |] eqn:Es;
      simpl in Hex; try done.
    destruct (IH {| Periodic.obj := n1; Periodic.bg := Periodic.bg p;
                    Periodic.fg := Some c;
                    Periodic.replies := Periodic.replies p;
                    Periodic.stops := match i with
                                      | Periodic.WaitWg => S (Periodic.stops p)
                                      | _ => Periodic.stops p
                                      end |} n' r eq_refl Hex)
      as (j & p' & Hrun & Hp').
    exists (S j), p'. split; [|exact Hp'].
    simpl. rewrite Hfg. simpl. rewrite Es. exact Hrun.
Qed.

(** What [handle] computes is what the schedule made of the call and its
    statements, with no other step in between, leaves behind. *)
Lemma handle_schedule e m e' r :
  calling e = false ->
  handle m e = Done (e', r) ->
  exists k e'',
    erun (recv_of e m :: repeat (next_of e) k) e = Done e''
    /\ replies_of e'' = replies_of e ++ [r]
    /\ lastT_of e'' = lastT_of e' /\ outs_of e'' = outs_of e'
    /\ calling e'' = false.
Proof.
  destruct e as [p|p]; intros Hcall Hh; simpl in Hcall, Hh.
  - destruct (exec _ _ _ _) as [[n r']| |] eqn:Hex; simpl in Hh; try done.
    injection Hh as <- <-.
    assert (Hfg : Idle.fg p = None).
    { destruct (Idle.fg p); [|done]. rewrite bool_decide_eq_false in Hcall.
      destruct Hcall. eauto. }
    destruct (idle_exec_schedule
                (Idle.set_fg (Some (Idle.receive (Idle.obj p) m)) p)
                eq_refl Hex) as (k & p' & Hrun & Ho & Hf & Hr & _).
    exists k, (IdleE p'). split.
    + unfold recv_of, next_of.
      assert (Hrepeat : repeat (OfIdle Idle.Next) k = map OfIdle (repeat Idle.Next k)).
      { clear. induction k; simpl; congruence. }
      rewrite Hrepeat.
      change (erun (map OfIdle (Idle.Recv m :: repeat Idle.Next k)) (IdleE p)
              = Done (IdleE p')).
      rewrite erun_idle. simpl. unfold Idle.call. rewrite Hfg. simpl.
      rewrite Hrun. reflexivity.
    + simpl. rewrite Ho, Hf, Hr. simpl. repeat split; auto.
  - destruct (exec _ _ _ _) as [[n r']| |] eqn:Hex; simpl in Hh; try done.
    injection Hh as <- <-.
    assert (Hfg : Periodic.fg p = None).
    { destruct (Periodic.fg p); [|done]. rewrite bool_decide_eq_false in Hcall.
      destruct Hcall. eauto. }
    destruct (periodic_exec_schedule
                (Periodic.set_fg (Some (Periodic.receive (Periodic.obj p) m)) p)
                eq_refl Hex) as (k & p' & Hrun & Ho & Hf & Hr & _).
    exists k, (PeriodicE p'). split.
    + unfold recv_of, next_of.
      assert (Hrepeat : repeat (OfPeriodic Periodic.Next) k
                        = map OfPeriodic (repeat Periodic.Next k)).
      { clear. induction k; simpl; congruence. }
      rewrite Hrepeat.
      change (erun (map OfPeriodic (Periodic.Recv m :: repeat Periodic.Next k))
                (PeriodicE p) = Done (PeriodicE p')).
      rewrite erun_periodic. simpl. unfold Periodic.call. rewrite Hfg. simpl.
      rewrite Hrun. reflexivity.
    + simpl. rewrite Ho, Hf, Hr. simpl. repeat split; auto.
Qed.

Lemma handle_timed e m t last :
  timed m = Some t -> lastT_of e = Some last ->
  exists e', handle m e = Done (e', if Before t last then None else Some m)
    /\ lastT_of e' = lastT_of e /\ outs_of e' = outs_of e
    /\ stops_of e' = stops_of e /\ exited e' = exited e.
Proof.
  intros Hm HT.
  destruct e as [p|p]; simpl in *;
    destruct m as [m|m|m|m|m|m]; simpl in *; simplify_eq;
    unfold Idle.load, Periodic.load; rewrite HT; simpl;
    destruct (Before _ last); simpl; eexists; (split; [reflexivity|done]).
Qed.

(** The clock readings of a schedule that runs from a state whose [lastT]
    is [t] carry [lastT] forward without ever lowering it. *)
Lemma lastT_advances s1 : forall s2 e e1 t,
  lastT_of e = Some t ->
  clock_ok t (emissions (s1 ++ s2)) = true ->
  erun s1 e = Done e1 ->
  exists t1, lastT_of e1 = Some t1 /\ t <= t1
             /\ clock_ok t1 (emissions s2) = true.
Proof.
  induction s1 as [|l s1 IH]; intros s2 e e1 t HT Hc Hr.
  - simpl in Hr. injection Hr as <-. exists t. split; [done|]. split; [lia|done].
  - apply run_cons_Done in Hr as (m & Hl & Hr).
    destruct (estep_effect _ _ Hl) as (HT' & _).
    unfold emissions in Hc. simpl in Hc.
    destruct (emission l) as [nowT|] eqn:El; simpl in Hc.
    + apply andb_true_iff in Hc as [Hle Hc]. apply Z.leb_le in Hle.
      destruct (IH s2 m e1 nowT HT' Hc Hr) as (t1 & ? & ? & ?).
      exists t1. split; [done|]. split; [lia|done].
    + rewrite HT in HT'. eapply IH; eauto.
Qed.

(** C1: a point, batch point or barrier whose time is before the emitter's
    last-barrier time is dropped (the handler returns nil); any other one is
    returned as it came, idle or periodic emitter alike.  The same reply is
    what the call leaves in the interleaving semantics when it runs from
    entry to return. *)
Theorem C1_late_messages_dropped (e : emitter) (m : Message) (t last : Time) :
  timed m = Some t ->
  lastT_of e = Some last ->
  exists e',
    handle m e = Done (e', if Before t last then None else Some m)
    /\ lastT_of e' = lastT_of e
    /\ (calling e = false ->
        exists k e'',
          erun (recv_of e m :: repeat (next_of e) k) e = Done e''
          /\ replies_of e'' =
             replies_of e ++ [if Before t last then None else Some m]).
Proof.
  intros Hm HT. destruct (handle_timed e m Hm HT) as (e' & Hh & HT' & _).
  exists e'. split; [exact Hh|]. split; [exact HT'|].
  intros Hcall. destruct (handle_schedule _ _ Hcall Hh) as (k & e'' & Hrun & Hr & _).
  eauto.
Qed.

Lemma C1_late_messages_dropped_witness :
  exists e',
    handle (MPoint {| p_time := 3; p_data := "cpu=1" |})
      (IdleE {| Idle.obj :=
                  {| Idle.name := "cpu";
                     Idle.group := {| ID := "host=a"; Tags := [] |};
                     Idle.idle := 5; Idle.lastT := Some 11;
                     Idle.timer := {| Idle.armed := true; Idle.C := chan.make 1 |};
                     Idle.wg := 1; Idle.outs := []; Idle.stopC := chan.make 1 |};
                Idle.bg := Idle.AtSelect; Idle.fg := None;
                Idle.replies := []; Idle.stops := 0 |})
    = Done (e', None)
    /\ lastT_of e' = Some 11.
Proof.
  destruct (@C1_late_messages_dropped
              (IdleE {| Idle.obj :=
                  {| Idle.name := "cpu";
                     Idle.group := {| ID := "host=a"; Tags := [] |};
                     Idle.idle := 5; Idle.lastT := Some 11;
                     Idle.timer := {| Idle.armed := true; Idle.C := chan.make 1 |};
                     Idle.wg := 1; Idle.outs := []; Idle.stopC := chan.make 1 |};
                Idle.bg := Idle.AtSelect; Idle.fg := None;
                Idle.replies := []; Idle.stops := 0 |})
              (MPoint {| p_time := 3; p_data := "cpu=1" |}) 3 11 eq_refl eq_refl)
    as (e' & Hh & HT & _).
  exists e'. split; [exact Hh|exact HT].
Defined.

(** C6, as the code has it: the constructor leaves [lastT] at the zero
    time; a step that runs [emitBarrier] stores its clock reading in
    [lastT] and no other step changes [lastT]; and as long as the clock
    readings of the emissions do not go back (and none lies before the zero
    time), [lastT] never decreases over the life of the emitter. *)
Theorem C6_lastT_monotone (e0 e1 e2 : emitter) (s1 s2 : list elabel) :
  constructed e0 ->
  clock_ok zeroTime (emissions (s1 ++ s2)) = true ->
  erun s1 e0 = Done e1 ->
  erun s2 e1 = Done e2 ->
  lastT_of e0 = Some zeroTime
  /\ (forall l e e', estep l e = Done e' ->
        lastT_of e' = match emission l with
                      | Some nowT => Some nowT
                      | None => lastT_of e
                      end)
  /\ exists t1 t2, lastT_of e1 = Some t1 /\ lastT_of e2 = Some t2 /\ t1 <= t2.
Proof.
  intros Hc Hclock Hr1 Hr2.
  assert (H0 : lastT_of e0 = Some zeroTime).
  { destruct Hc as [| ? ? ? ? p Hp]; [reflexivity|].
    unfold Periodic.newPeriodicBarrier, Periodic.NewTicker in Hp.
    step_cases. reflexivity. }
  split; [exact H0|]. split.
  - intros l e e' Hl. exact (proj1 (estep_effect _ _ Hl)).
  - destruct (lastT_advances s1 s2 e0 H0 Hclock Hr1) as (t1 & HT1 & _ & Hc2).
    rewrite <- (app_nil_r s2) in Hc2.
    destruct (lastT_advances s2 [] e1 HT1 Hc2 Hr2) as (t2 & HT2 & Hle & _).
    eauto.
Qed.

Lemma C6_lastT_monotone_witness :
  let s1 := [OfPeriodic (Periodic.Tick 10); OfPeriodic Periodic.RecvTicker;
             OfPeriodic (Periodic.Emit 11 Accept)] in
  let s2 := [OfPeriodic (Periodic.Tick 20); OfPeriodic Periodic.RecvTicker;
             OfPeriodic (Periodic.Emit 21 (Abort 1 "edge aborted"))] in
  lastT_of (after s1 periodicA) = Some 11
  /\ lastT_of (after (s1 ++ s2) periodicA) = Some 21
  /\ exists t1 t2, lastT_of (after s1 periodicA) = Some t1
                   /\ lastT_of (after (s1 ++ s2) periodicA) = Some t2 /\ t1 <= t2.
Proof.
  intros s1 s2.
  split; [vm_compute; reflexivity|]. split; [vm_compute; reflexivity|].
  refine (proj2 (proj2 (@C6_lastT_monotone periodicA (after s1 periodicA)
                          (after (s1 ++ s2) periodicA) s1 s2 _ _ _ _))).
  - apply (constructed_periodic "cpu" groupA 5 [[]; []]). vm_compute. reflexivity.
  - vm_compute. reflexivity.
  - vm_compute. reflexivity.
  - vm_compute. reflexivity.
Defined.

(** C6 as the specification words it does not hold: [emitBarrier] stores
    whatever reading the clock gives, and a reading that lies before the
    stored one takes [lastT] back, here from 11 to 5. *)
Lemma C6_lastT_goes_back :
  let s1 := [OfIdle (Idle.Expire 10); OfIdle Idle.RecvTimer;
             OfIdle (Idle.Emit 11 Accept)] in
  let s2 := [OfIdle Idle.Reset; OfIdle (Idle.Expire 16); OfIdle Idle.RecvTimer;
             OfIdle (Idle.Emit 5 Accept)] in
  exists e1 e2,
    constructed idleA
    /\ erun s1 idleA = Done e1 /\ erun s2 e1 = Done e2
    /\ lastT_of e1 = Some 11 /\ lastT_of e2 = Some 5
    /\ ~ (exists t1 t2, lastT_of e1 = Some t1 /\ lastT_of e2 = Some t2 /\ t1 <= t2).
Proof.
  intros s1 s2. eexists. eexists.
  split; [constructor|].
  split; [vm_compute; reflexivity|]. split; [vm_compute; reflexivity|].
  split; [vm_compute; reflexivity|]. split; [vm_compute; reflexivity|].
  intros (t1 & t2 & H1 & H2 & Hle). vm_compute in H1, H2.
  injection H1 as <-. injection H2 as <-. lia.
Qed.

(** C9: begin-batch and end-batch markers come back unchanged whatever
    [lastT] is, and the emitter, its timer included, is exactly as before. *)
Theorem C9_batch_markers_pass (e : emitter)
        (bb : BeginBatchMessage) (eb : EndBatchMessage) :
  handle (MBeginBatch bb) e = Done (e, Some (MBeginBatch bb))
  /\ handle (MEndBatch eb) e = Done (e, Some (MEndBatch eb)).
Proof.
  destruct e as [[]|[]]; split; reflexivity.
Qed.

(** *** The node *)

Lemma newBarrierNode_Ok et n d bn :
  newBarrierNode et n d = Ok bn ->
  (pipeline.Idle n <> 0 \/ pipeline.Period n <> 0)
  /\ bn = {| base := {| Node := n; et := et; diag := d; outs := [] |};
             b := n; barrierStopper := ∅ |}.
Proof.
  unfold newBarrierNode.
  destruct (pipeline.Idle n =? 0) eqn:Ei, (pipeline.Period n =? 0) eqn:Ep;
    simpl; intros [= <-]; split; auto; lia.
Qed.

(** No step of the node, its emitters or its shutdown touches the settings
    or the embedded [node]. *)
Lemma wstep_self l w w' :
  wstep l w = Done w' ->
  b (self w') = b (self w) /\ base (self w') = base (self w).
Proof.
  unfold wstep, NewGroup, newBarrier, at_emitter, begin_stopping, alloc.
  destruct l; intros Hs; step_cases; auto.
Qed.

Lemma wrun_self s w w' :
  wrun s w = Done w' ->
  b (self w') = b (self w) /\ base (self w') = base (self w).
Proof.
  intros Hr.
  apply (run_invariant wstep
           (fun x => b (self x) = b (self w) /\ base (self x) = base (self w)))
    with (s := s) (p := w); auto.
  intros l p p' [Hb Hbase] Hl. apply wstep_self in Hl as [? ?].
  split; congruence.
Qed.

Lemma NewGroup_idle w group first :
  pipeline.Idle (b (self w)) <> 0 ->
  NewGroup w group first =
  Done (Ok ({| self := {| base := base (self w); b := b (self w);
                          barrierStopper :=
                            <[ID group := length (heap w)]> (barrierStopper (self w)) |};
               heap := heap w ++ [IdleE (Idle.newIdleBarrier (Name first) group
                                           (pipeline.Idle (b (self w)))
                                           (outs (base (self w))))];
               stopping := stopping w |},
            length (heap w))).
Proof.
  intros Hi. unfold NewGroup, newBarrier, alloc.
  destruct (pipeline.Idle (b (self w)) =? 0) eqn:E; [lia|]. reflexivity.
Qed.

Lemma newBarrier_no_error w group first err :
  pipeline.Idle (b (self w)) <> 0 \/ pipeline.Period (b (self w)) <> 0 ->
  newBarrier w group first <> Done (Err err).
Proof.
  intros Hcfg. unfold newBarrier, alloc, Periodic.newPeriodicBarrier,
    Periodic.NewTicker.
  destruct (pipeline.Idle (b (self w)) =? 0) eqn:Ei; simpl; [|done].
  destruct (pipeline.Period (b (self w)) =? 0) eqn:Ep; simpl; [lia|].
  destruct (pipeline.Period (b (self w)) <=? 0); simpl; done.
Qed.

(** C4: the constructor returns an error exactly when idle and period are
    both zero; a node it returns has no stop function and no emitter yet;
    and with a non-zero idle and a zero period it returns a node whose
    every [NewGroup] builds an idle emitter. *)
Theorem C4_construction_validated
        (t : ExecutingTask) (n : pipeline.BarrierNode) (d : NodeDiagnostic) :
  ((exists err, newBarrierNode t n d = Err err)
     <-> pipeline.Idle n = 0 /\ pipeline.Period n = 0)
  /\ (forall bn, newBarrierNode t n d = Ok bn ->
        b bn = n /\ barrierStopper bn = ∅ /\ heap (start bn) = [])
  /\ (pipeline.Idle n <> 0 -> pipeline.Period n = 0 ->
      exists bn, newBarrierNode t n d = Ok bn
        /\ forall s w group first, wrun s (start bn) = Done w ->
             exists w', NewGroup w group first = Done (Ok (w', length (heap w)))
               /\ heap w' = heap w ++
                    [IdleE (Idle.newIdleBarrier (Name first) group (pipeline.Idle n) [])]
               /\ barrierStopper (self w') !! ID group = Some (length (heap w))).
Proof.
  split; [|split].
  - unfold newBarrierNode.
    destruct (Z.eqb_spec (pipeline.Idle n) 0) as [Hi|Hi],
             (Z.eqb_spec (pipeline.Period n) 0) as [Hp|Hp]; simpl.
    + split; [auto|eauto].
    + split; [intros [err Herr]; discriminate|intros [_ ?]; contradiction].
    + split; [intros [err Herr]; discriminate|intros [? _]; contradiction].
    + split; [intros [err Herr]; discriminate|intros [? _]; contradiction].
  - intros bn Hbn. apply newBarrierNode_Ok in Hbn as [_ ->]. auto.
  - intros Hi Hp.
    destruct (newBarrierNode t n d) as [bn|err] eqn:Hbn.
    + exists bn. split; [reflexivity|].
      apply newBarrierNode_Ok in Hbn as [_ ->].
      intros s w group first Hr. apply wrun_self in Hr as [Hb Hbase].
      simpl in Hb, Hbase.
      eexists. split; [apply NewGroup_idle; rewrite Hb; exact Hi|].
      simpl. rewrite Hb, Hbase. simpl. split; [reflexivity|].
      apply lookup_insert_eq.
    + exfalso. unfold newBarrierNode in Hbn.
      destruct (pipeline.Idle n =? 0) eqn:Ei; [lia|]. discriminate.
Qed.

Lemma C4_construction_validated_witness :
  exists bn w',
    newBarrierNode "task" {| pipeline.Idle := 5000000000; pipeline.Period := 0 |} [] = Ok bn
    /\ NewGroup (start bn) {| ID := "host=a"; Tags := [] |} {| Name := "cpu" |}
       = Done (Ok (w', 0%nat))
    /\ heap w' =
       [IdleE (Idle.newIdleBarrier "cpu" {| ID := "host=a"; Tags := [] |} 5000000000 [])].
Proof.
  destruct (proj2 (proj2 (C4_construction_validated
              "task" {| pipeline.Idle := 5000000000; pipeline.Period := 0 |} [])))
    as (bn & Hbn & Hnew).
  - vm_compute. discriminate.
  - vm_compute. reflexivity.
  - destruct (Hnew [] (start bn) {| ID := "host=a"; Tags := [] |} {| Name := "cpu" |})
      as (w' & Hw & Hheap & _).
    + vm_compute. reflexivity.
    + exists bn, w'. auto.
Defined.

(** C5: on a node built with idle and period both non-zero, every new
    group gets an idle emitter armed with the idle duration; the period
    plays no part. *)
Theorem C5_idle_takes_precedence
        (t : ExecutingTask) (n : pipeline.BarrierNode) (d : NodeDiagnostic)
        (bn : BarrierNode) (s : list wlabel) (w : world)
        (group : GroupInfo) (first : PointMeta) :
  newBarrierNode t n d = Ok bn ->
  pipeline.Idle n <> 0 ->
  pipeline.Period n <> 0 ->
  wrun s (start bn) = Done w ->
  exists w',
    NewGroup w group first = Done (Ok (w', length (heap w)))
    /\ heap w' = heap w ++
         [IdleE (Idle.newIdleBarrier (Name first) group (pipeline.Idle n) [])]
    /\ barrierStopper (self w') !! ID group = Some (length (heap w)).
Proof.
  intros Hbn Hi _ Hr. apply newBarrierNode_Ok in Hbn as [_ ->].
  apply wrun_self in Hr as [Hb Hbase]. simpl in Hb, Hbase.
  eexists. split; [apply NewGroup_idle; rewrite Hb; exact Hi|].
  simpl. rewrite Hb, Hbase. simpl. split; [reflexivity|].
  apply lookup_insert_eq.
Qed.

Lemma C5_idle_takes_precedence_witness :
  exists w',
    NewGroup
      (start {| base := {| Node := {| pipeline.Idle := 5; pipeline.Period := 9 |};
                           et := "task"; diag := []; outs := [] |};
                b := {| pipeline.Idle := 5; pipeline.Period := 9 |};
                barrierStopper := ∅ |})
      {| ID := "host=a"; Tags := [] |} {| Name := "cpu" |}
    = Done (Ok (w', 0%nat))
    /\ heap w' = [IdleE (Idle.newIdleBarrier "cpu" {| ID := "host=a"; Tags := [] |} 5 [])].
Proof.
  destruct (@C5_idle_takes_precedence
              "task" {| pipeline.Idle := 5; pipeline.Period := 9 |} []
              _ [] _ {| ID := "host=a"; Tags := [] |} {| Name := "cpu" |}
              eq_refl ltac:(vm_compute; discriminate)
              ltac:(vm_compute; discriminate) eq_refl)
    as (w' & Hw & Hheap & _).
  exists w'. split; [exact Hw|exact Hheap].
Defined.

(** C10: on a node the constructor returned, in whatever state it has
    reached, neither [newBarrier] nor [NewGroup] returns an error: the
    default branch is never taken.  [NewGroup] returns the receiver unless
    idle is zero and the period negative, where [time.NewTicker] panics. *)
Theorem C10_new_group_never_errs
        (t : ExecutingTask) (n : pipeline.BarrierNode) (d : NodeDiagnostic)
        (bn : BarrierNode) (s : list wlabel) (w : world)
        (group : GroupInfo) (first : PointMeta) :
  newBarrierNode t n d = Ok bn ->
  wrun s (start bn) = Done w ->
  (forall err, newBarrier w group first <> Done (Err err))
  /\ (forall err, NewGroup w group first <> Done (Err err))
  /\ (pipeline.Idle n <> 0 \/ 0 < pipeline.Period n ->
      exists w', NewGroup w group first = Done (Ok (w', length (heap w)))).
Proof.
  intros Hbn Hr. apply newBarrierNode_Ok in Hbn as [Hcfg ->].
  apply wrun_self in Hr as [Hb Hbase]. simpl in Hb, Hbase.
  assert (Hne : forall err, newBarrier w group first <> Done (Err err)).
  { intros err. apply newBarrier_no_error. rewrite Hb. exact Hcfg. }
  split; [exact Hne|]. split.
  - intros err. unfold NewGroup.
    destruct (newBarrier w group first) as [[[[w' r] stopF]|e]| |] eqn:E;
      simpl; try done.
    exfalso. exact (Hne e eq_refl).
  - intros Hpos. destruct (Z.eq_dec (pipeline.Idle n) 0) as [Hz|Hnz].
    + destruct Hpos as [?|Hpos]; [lia|].
      unfold NewGroup, newBarrier, alloc, Periodic.newPeriodicBarrier,
        Periodic.NewTicker.
      rewrite Hb.
      destruct (pipeline.Idle n =? 0) eqn:Ei; [|lia].
      destruct (pipeline.Period n =? 0) eqn:Ep; [lia|].
      destruct (pipeline.Period n <=? 0) eqn:El; [lia|].
      simpl. eauto.
    + eexists. apply NewGroup_idle. rewrite Hb. exact Hnz.
Qed.

Lemma C10_new_group_never_errs_witness :
  NewGroup
    (start {| base := {| Node := {| pipeline.Idle := 0; pipeline.Period := 7 |};
                         et := "task"; diag := []; outs := [] |};
              b := {| pipeline.Idle := 0; pipeline.Period := 7 |};
              barrierStopper := ∅ |})
    {| ID := "host=a"; Tags := [] |} {| Name := "cpu" |}
  <> Done (Err "unreachable code, barrier node should have non-zero idle or non-zero period").
Proof.
  exact (proj1 (proj2 (@C10_new_group_never_errs
           "task" {| pipeline.Idle := 0; pipeline.Period := 7 |} []
           _ [] _ {| ID := "host=a"; Tags := [] |} {| Name := "cpu" |}
           eq_refl eq_refl)) _).
Defined.

(** *** A call of [Stop] from entry to return *)

Lemma idle_stopping_step r R N l p p' :
  idle_stopping r R N p -> Idle.step l p = Done p' -> idle_stopping r R N p'.
Proof.
  intros Hst Hs.
  pose proof (idle_step_effect _ _ Hs) as (_ & _ & Hmono & _).
  unfold idle_stopping in *.
  unfold Idle.step, Idle.next, Idle.call, Idle.sem, Idle.load, Load,
    Idle.Timer_expire, Idle.emitBarrier, Forward, chan.recv, chan.close,
    chan.offer, wg_Done, Idle.Stop in *.
  destruct Hst as [(HR & HN & [Hf|[Hf|Hf]])|[(HR & HN & Hf)|([rest HR] & HN)]].
  1-4: rewrite Hf in Hs; destruct l; step_cases;
       simpl;
       first [ left; repeat split; auto; fail
             | right; left; repeat split; auto; lia
             | right; right; split; [exists []; congruence|lia] ].
  right; right. split; [|lia].
  destruct l; step_cases; simpl; eauto.
  all: try (rewrite HR; rewrite <- app_assoc; simpl; eauto).
Qed.

Lemma periodic_stopping_step r R N l p p' :
  periodic_stopping r R N p -> Periodic.step l p = Done p' ->
  periodic_stopping r R N p'.
Proof.
  intros Hst Hs.
  pose proof (periodic_step_effect _ _ Hs) as (_ & _ & Hmono & _).
  unfold periodic_stopping in *.
  unfold Periodic.step, Periodic.next, Periodic.call, Periodic.sem,
    Periodic.load, Load, Periodic.Ticker_tick, Periodic.emitBarrier, Forward,
    chan.recv, chan.send, chan.offer, wg_Done, Periodic.Stop in *.
  destruct Hst as [(HR & HN & [Hf|[Hf|Hf]])|[(HR & HN & Hf)|([rest HR] & HN)]].
  1-4: rewrite Hf in Hs; destruct l; step_cases;
       simpl;
       first [ left; repeat split; auto; fail
             | right; left; repeat split; auto; lia
             | right; right; split; [exists []; congruence|lia] ].
  right; right. split; [|lia].
  destruct l; step_cases; simpl; eauto.
  all: try (rewrite HR; rewrite <- app_assoc; simpl; eauto).
Qed.

Lemma estopping_step r R N l e e' :
  estopping r R N e -> estep l e = Done e' -> estopping r R N e'.
Proof.
  destruct l as [l|l], e as [p|p]; simpl; try done.
  - destruct (Idle.step l p) as [q| |] eqn:E; simpl; try done.
    intros Hi [= <-]. simpl. eauto using idle_stopping_step.
  - destruct (Periodic.step l p) as [q| |] eqn:E; simpl; try done.
    intros Hi [= <-]. simpl. eauto using periodic_stopping_step.
Qed.

(** Entering [Stop] changes nothing but the call in progress. *)
Lemma call_Stop_enters r e e1 :
  call_Stop r e = Done e1 ->
  estopping r (replies_of e) (stops_of e) e1
  /\ (einv e -> einv e1).
Proof.
  destruct e as [p|p]; simpl.
  - unfold Idle.call. destruct (Idle.fg p); simpl; [done|].
    intros [= <-]. split; [left; simpl; auto|done].
  - unfold Periodic.call. destruct (Periodic.fg p); simpl; [done|].
    intros [= <-]. split; [left; simpl; auto|done].
Qed.

(** Once the call has replied, the reply is [r] and its wait has
    returned. *)
Lemma estopping_replied r R N e :
  estopping r R N e ->
  (length R < length (replies_of e))%nat ->
  (exists rest, replies_of e = R ++ r :: rest) /\ (N < stops_of e)%nat.
Proof.
  destruct e as [p|p]; simpl;
    intros [(HR & _)|[(HR & _)|(Hrest & HN)]] Hlen; auto;
    rewrite HR in Hlen; lia.
Qed.

(** A step of one emitter of the node leaves the others as they are. *)
Lemma at_emitter_frame r f w w' r' :
  at_emitter r f w = Done w' -> r' <> r -> heap w' !! r' = heap w !! r'.
Proof.
  unfold at_emitter. intros Hs Hne. step_cases.
  apply list_lookup_insert_ne. congruence.
Qed.

(** *** A second [Stop] *)

Lemma waits_closed_mono c : forall b, waits_closed b c -> waits_closed true c.
Proof.
  induction c as [r|k IH|i k IH]; simpl; intros b Hw; auto.
  - intros t. eauto.
  - destruct i; simpl in *; eauto. destruct Hw; eauto.
Qed.

Lemma waits_closed_receive n m b : waits_closed b (Idle.receive n m).
Proof.
  destruct m as [m|m|m|m|m|m]; simpl; auto;
    unfold Idle.DeleteGroup; try (intros t; destruct (negb _); simpl; auto).
  destruct (decide _); simpl; auto.
Qed.

Lemma idle_closed_inv_step l p p' :
  idle_closed_inv p -> Idle.step l p = Done p' -> idle_closed_inv p'.
Proof.
  intros [Hfg Hst] Hs.
  unfold Idle.step, Idle.next, Idle.call, Idle.sem, Idle.load, Load,
    Idle.Timer_expire, Idle.emitBarrier, Forward, chan.recv, chan.close,
    chan.offer, wg_Done in Hs.
  destruct l; step_cases; unfold idle_closed_inv; simpl in *.
  all: try (split; [intros c' [= <-]|]; simpl; auto;
            try apply waits_closed_receive; fail).
  all: try (split; [intros c' Hc'; try done; eauto|auto]; fail).
  all: repeat match goal with
              | H : chan.closed _ = _ |- _ => rewrite H in *
              end.
  all: try (pose proof (Hfg _ eq_refl) as Hw; simpl in Hw).
  all: split; [intros c' Hc'; simplify_eq|];
       intuition (eauto using waits_closed_mono).
Qed.

Lemma eclosed_run s e0 e :
  constructed e0 -> erun s e0 = Done e -> eclosed e.
Proof.
  intros Hc. apply (run_invariant estep eclosed).
  - intros [l|l] [p|p] e'; simpl; try done.
    + destruct (Idle.step l p) as [q| |] eqn:E; simpl; try done.
      intros Hi [= <-]. simpl. eauto using idle_closed_inv_step.
    + destruct (Periodic.step l p) as [q| |] eqn:E; simpl; try done.
      intros _ [= <-]. exact I.
  - destruct Hc; simpl; [|exact I]. split; simpl; [done|done].
Qed.

(** An idle emitter whose [Stop] has returned once panics on the next
    [Stop], at [close(n.stopC)]. *)
Lemma idle_second_stop_panics e0 s p :
  constructed e0 ->
  erun s e0 = Done (IdleE p) ->
  Idle.stops p <> 0%nat ->
  Idle.fg p = None ->
  erun [OfIdle Idle.CallStop; OfIdle Idle.Next] (IdleE p)
  = Panic "close of closed channel".
Proof.
  intros Hc Hr Hst Hfg.
  destruct (eclosed_run _ Hc Hr) as [_ Hcl]. specialize (Hcl Hst).
  unfold erun. simpl. unfold Idle.step, Idle.call. rewrite Hfg.
  destruct (Idle.bg p); simpl; unfold chan.close; rewrite Hcl; reflexivity.
Qed.

(** C3: a group is created on an idle node, its deletion message stops its
    emitter, and the consumer returns: the stop function is still
    registered, [stopBarrierEmitter] calls it again, and the second
    [close(n.stopC)] panics.  The same run on a periodic node goes through,
    the second send finding room in [stopC]. *)
Theorem C3_deleted_group_stopped_again :
  let gA := {| ID := "host=a"; Tags := [("host", "a")] |} in
  let del := MDeleteGroup {| dg_id := "host=a" |} in
  let node0 cfg :=
    start {| base := {| Node := cfg; et := "task"; diag := []; outs := [] |};
             b := cfg; barrierStopper := ∅ |} in
  let idle_deleted :=
    [Group gA {| Name := "cpu" |}; Deliver 0%nat del;
     Sched 0%nat (OfIdle Idle.Next); Sched 0%nat (OfIdle Idle.Next);
     Sched 0%nat (OfIdle Idle.RecvStop); Sched 0%nat (OfIdle Idle.WgDone);
     Sched 0%nat (OfIdle Idle.Next); Sched 0%nat (OfIdle Idle.Next);
     ConsumeEnd] in
  let periodic_deleted :=
    [Group gA {| Name := "cpu" |}; Deliver 0%nat del;
     Sched 0%nat (OfPeriodic Periodic.Next); Sched 0%nat (OfPeriodic Periodic.Next);
     Sched 0%nat (OfPeriodic Periodic.RecvStop); Sched 0%nat (OfPeriodic Periodic.WgDone);
     Sched 0%nat (OfPeriodic Periodic.Next); Sched 0%nat (OfPeriodic Periodic.Next);
     ConsumeEnd] in
  newBarrierNode "task" {| pipeline.Idle := 5; pipeline.Period := 0 |} []
    = Ok (self (node0 {| pipeline.Idle := 5; pipeline.Period := 0 |}))
  /\ (stopping <$> wrun idle_deleted (node0 {| pipeline.Idle := 5; pipeline.Period := 0 |}))
     = Done (Some [0%nat])
  /\ (fmap (M := list) stops_of <$> (heap <$> wrun idle_deleted (node0 {| pipeline.Idle := 5; pipeline.Period := 0 |})))
     = Done [1%nat]
  /\ wrun (idle_deleted ++ [StopNext; Sched 0%nat (OfIdle Idle.Next)])
       (node0 {| pipeline.Idle := 5; pipeline.Period := 0 |})
     = Panic "close of closed channel"
  /\ (stopping <$> wrun (periodic_deleted ++
                   [StopNext; Sched 0%nat (OfPeriodic Periodic.Next);
                    Sched 0%nat (OfPeriodic Periodic.Next);
                    Sched 0%nat (OfPeriodic Periodic.Next);
                    Sched 0%nat (OfPeriodic Periodic.Next)])
        (node0 {| pipeline.Idle := 0; pipeline.Period := 7 |}))
     = Done (Some []).
Proof.
  cbv zeta. repeat split; vm_compute; reflexivity.
Qed.

(** *** Forwarding failures *)

Lemma idle_refire p t nowT verdict o err :
  idle_inv p -> Idle.bg p = Idle.AtReset ->
  Forward verdict (Idle.outs (Idle.obj p))
    (NewBarrierMessage (Idle.group (Idle.obj p)) nowT) = Done (o, err) ->
  exists p2,
    run Idle.step [Idle.Reset; Idle.Expire t; Idle.RecvTimer; Idle.Emit nowT verdict] p
    = Done p2
    /\ Idle.bg p2 = Idle.AtReset
    /\ Idle.lastT (Idle.obj p2) = Some nowT
    /\ Idle.outs (Idle.obj p2) = o.
Proof.
  intros (_ & _ & _ & Hcap) Hbg HF.
  destruct p as [[nm g i lt [a [cp bf cl]] w o0 sc] bg fg rs st].
  simpl in *. subst bg cp.
  unfold Idle.step, Idle.Timer_expire, chan.offer, chan.has_room,
    Idle.emitBarrier; simpl.
  rewrite HF. simpl. eexists. split; [reflexivity|simpl; auto].
Qed.

Lemma periodic_refire p t nowT verdict o err :
  periodic_inv p -> Periodic.bg p = Periodic.AtSelect ->
  Periodic.active (Periodic.ticker (Periodic.obj p)) = true ->
  Forward verdict (Periodic.outs (Periodic.obj p))
    (NewBarrierMessage (Periodic.group (Periodic.obj p)) nowT) = Done (o, err) ->
  exists p2,
    run Periodic.step
      [Periodic.Tick t; Periodic.RecvTicker; Periodic.Emit nowT verdict] p
    = Done p2
    /\ Periodic.bg p2 = Periodic.AtSelect
    /\ Periodic.lastT (Periodic.obj p2) = Some nowT
    /\ Periodic.outs (Periodic.obj p2) = o.
Proof.
  intros (_ & _ & _ & Hcap) Hbg Hact HF.
  destruct p as [[nm g lt [a [cp bf cl]] w o0 sc] bg fg rs st].
  simpl in *. subst bg cp a.
  unfold Periodic.step, Periodic.Ticker_tick, chan.offer, chan.has_room,
    Periodic.emitBarrier; simpl.
  destruct bf as [|v [|v' bf]]; simpl;
    rewrite HF; simpl; eexists; (split; [reflexivity|simpl; auto]).
Qed.

Lemma estep_emit_inv e nowT verdict e1 :
  estep (emit_of e nowT verdict) e = Done e1 ->
  (exists p q, e = IdleE p /\ e1 = IdleE q
               /\ Idle.step (Idle.Emit nowT verdict) p = Done q)
  \/ (exists p q, e = PeriodicE p /\ e1 = PeriodicE q
                  /\ Periodic.step (Periodic.Emit nowT verdict) p = Done q).
Proof.
  destruct e as [p|p]; unfold emit_of, estep; intros H; [left|right].
  - destruct (Idle.step (Idle.Emit nowT verdict) p) as [q| |] eqn:E;
      [|discriminate..]. injection H as <-. eauto.
  - destruct (Periodic.step (Periodic.Emit nowT verdict) p) as [q| |] eqn:E;
      [|discriminate..]. injection H as <-. eauto.
Qed.

(** C8, as the code has it: the error an edge returns to [emitBarrier] is
    dropped on the spot, leaving no trace in the emitter (whichever error
    it was) nor in the node's diagnostic; the edges before the failing one
    have the barrier, the others have not; the goroutine stays in its loop,
    and the next firing runs [emitBarrier] again. *)
Theorem C8_forward_failure_swallowed (e0 e e1 : emitter) (s : list elabel)
        (nowT : Time) (k : nat) (err : error) :
  constructed e0 ->
  erun s e0 = Done e ->
  estep (emit_of e nowT (Abort k err)) e = Done e1 ->
  (forall err', estep (emit_of e nowT (Abort k err')) e = Done e1)
  /\ exited e1 = false
  /\ outs_of e1 =
     map (Collect (NewBarrierMessage (group_of e) nowT)) (take k (outs_of e))
     ++ drop k (outs_of e)
  /\ lastT_of e1 = Some nowT
  /\ (forall t nowT' verdict o err',
        refires e1 = true ->
        Forward verdict (outs_of e1) (NewBarrierMessage (group_of e1) nowT')
        = Done (o, err') ->
        exists e2,
          erun (refire e1 t nowT' verdict) e1 = Done e2
          /\ exited e2 = false
          /\ lastT_of e2 = Some nowT'
          /\ outs_of e2 = o)
  /\ (forall sw w w', wrun sw w = Done w' ->
        diag (base (self w')) = diag (base (self w))).
Proof.
  intros Hc Hr He.
  assert (Hinv : einv e1).
  { eapply einv_step; [|exact He]. eapply einv_run; eauto using einv_constructed. }
  split; [|split; [|split; [|split; [|split]]]].
  - intros err'. rewrite <- He. destruct e as [p|p]; simpl;
      unfold Idle.step, Periodic.step, Idle.emitBarrier, Periodic.emitBarrier,
        Forward; simpl.
    + destruct (Idle.bg p); try reflexivity.
      destruct (k <? _)%nat; reflexivity.
    + destruct (Periodic.bg p); try reflexivity.
      destruct (k <? _)%nat; reflexivity.
  - destruct (estep_emit_inv _ _ _ He)
      as [(p & q & -> & -> & E)|(p & q & -> & -> & E)].
    + apply idle_step_effect in E as ((_ & Hq & _) & _).
      simpl. rewrite Hq. reflexivity.
    + apply periodic_step_effect in E as ((_ & Hq & _) & _).
      simpl. rewrite Hq. reflexivity.
  - destruct (estep_emit_inv _ _ _ He)
      as [(p & q & -> & -> & E)|(p & q & -> & -> & E)].
    + apply idle_step_effect in E as ((_ & _ & _ & err0 & Ho) & _).
      simpl. unfold Forward in Ho.
      destruct (k <? _)%nat; [|discriminate]. congruence.
    + apply periodic_step_effect in E as ((_ & _ & _ & err0 & Ho) & _).
      simpl. unfold Forward in Ho.
      destruct (k <? _)%nat; [|discriminate]. congruence.
  - destruct (estep_effect _ _ He) as (HT & _).
    destruct e; simpl in HT; exact HT.
  - intros t nowT' verdict o err' Hre HF.
    destruct (estep_emit_inv _ _ _ He)
      as [(p & q & -> & -> & E)|(p & q & -> & -> & E)].
    + apply idle_step_effect in E as ((_ & Hq & _) & _).
      destruct (idle_refire t nowT' verdict Hinv Hq HF)
        as (p2 & Hrun & Hbg & HT & Ho).
      exists (IdleE p2). split; [|simpl; rewrite Hbg; auto].
      change (refire (IdleE q) t nowT' verdict)
        with (map OfIdle [Idle.Reset; Idle.Expire t; Idle.RecvTimer;
                          Idle.Emit nowT' verdict]).
      rewrite erun_idle, Hrun. reflexivity.
    + apply periodic_step_effect in E as ((_ & Hq & _) & _).
      destruct (periodic_refire t nowT' verdict Hinv Hq Hre HF)
        as (p2 & Hrun & Hbg & HT & Ho).
      exists (PeriodicE p2). split; [|simpl; rewrite Hbg; auto].
      change (refire (PeriodicE q) t nowT' verdict)
        with (map OfPeriodic [Periodic.Tick t; Periodic.RecvTicker;
                              Periodic.Emit nowT' verdict]).
      rewrite erun_periodic, Hrun. reflexivity.
  - intros sw w w' Hw. apply wrun_self in Hw as [_ Hbase]. congruence.
Qed.

Lemma C8_forward_failure_swallowed_witness :
  let e := after [OfIdle (Idle.Expire 10); OfIdle Idle.RecvTimer] idleA in
  let e1 := after [OfIdle (Idle.Emit 11 (Abort 1 "edge aborted"))] e in
  exists e2,
    estep (OfIdle (Idle.Emit 11 (Abort 1 "edge aborted"))) e = Done e1
    /\ outs_of e1 = [[NewBarrierMessage groupA 11]; []]
    /\ erun [OfIdle Idle.Reset; OfIdle (Idle.Expire 16); OfIdle Idle.RecvTimer;
             OfIdle (Idle.Emit 17 Accept)] e1 = Done e2
    /\ outs_of e2 = [[NewBarrierMessage groupA 11; NewBarrierMessage groupA 17];
                     [NewBarrierMessage groupA 17]].
Proof.
  intros e e1.
  assert (He1 : estep (OfIdle (Idle.Emit 11 (Abort 1 "edge aborted"))) e = Done e1)
    by (vm_compute; reflexivity).
  destruct (@C8_forward_failure_swallowed
              idleA e e1 [OfIdle (Idle.Expire 10); OfIdle Idle.RecvTimer]
              11 1%nat "edge aborted")
    as (_ & _ & Ho & _ & Hre & _).
  - constructor.
  - vm_compute. reflexivity.
  - exact He1.
  - destruct (Hre 16 17 Accept
                [[NewBarrierMessage groupA 11; NewBarrierMessage groupA 17];
                 [NewBarrierMessage groupA 17]] None)
      as (e2 & Hrun & _ & _ & Ho2).
    + vm_compute. reflexivity.
    + vm_compute. reflexivity.
    + exists e2. split; [exact He1|]. split; [vm_compute; reflexivity|].
      split; [exact Hrun|exact Ho2].
Defined.

(** C8 as the specification words it does not hold: an emission an edge
    rejects is reported nowhere, the node's diagnostic has not heard of
    it. *)
Lemma C8_failure_not_reported :
  ~ (forall (s : list wlabel) (w0 w : world) (r : nat) (nowT : Time)
            (k : nat) (err : error),
        wrun s w0 = Done w ->
        In (Sched r (OfIdle (Idle.Emit nowT (Abort k err)))) s ->
        In err (diag (base (self w)))).
Proof.
  intros Hrep.
  pose (s := [Group {| ID := "host=a"; Tags := [] |} {| Name := "cpu" |};
              Sched 0%nat (OfIdle (Idle.Expire 10));
              Sched 0%nat (OfIdle Idle.RecvTimer);
              Sched 0%nat (OfIdle (Idle.Emit 11 (Abort 0 "edge aborted")))]).
  pose (w0 := start (link [[]] (nodeA 5 0))).
  assert (Hrun : wrun s w0 = Done (wafter s w0)) by (vm_compute; reflexivity).
  specialize (Hrep s w0 (wafter s w0) 0%nat 11 0%nat "edge aborted" Hrun).
  assert (Hd : diag (base (self (wafter s w0))) = []) by (vm_compute; reflexivity).
  rewrite Hd in Hrep. apply Hrep. right; right; right; left. reflexivity.
Qed.

(** * Further properties of the emitters *)

Lemma constructed_periodicA : constructed periodicA.
Proof.
  apply (constructed_periodic "cpu" groupA 5 [[]; []]). vm_compute. reflexivity.
Qed.

Lemma dropped_unchanged (e e' : emitter) (m : Message) :
  handle m e = Done (e', None) -> e' = e.
Proof.
  destruct e as [p|p]; simpl; intros Hh.
  - destruct (exec _ _ _ _) as [[n r]| |] eqn:Hex; simpl in Hh; try done.
    injection Hh as <- ->.
    assert (n = Idle.obj p); [|subst n; destruct p; reflexivity].
    destruct m as [m|m|m|m|m|m]; simpl in Hex;
      unfold Idle.DeleteGroup, Idle.load, Load, Idle.sem in Hex;
      step_cases; reflexivity.
  - destruct (exec _ _ _ _) as [[n r]| |] eqn:Hex; simpl in Hh; try done.
    injection Hh as <- ->.
    assert (n = Periodic.obj p); [|subst n; destruct p; reflexivity].
    destruct m as [m|m|m|m|m|m]; simpl in Hex;
      unfold Periodic.DeleteGroup, Periodic.load, Load, Periodic.sem in Hex;
      step_cases; reflexivity.
Qed.

(** X1: a message an emitter drops leaves the emitter exactly as it was; in
    particular a late message does not reset the idle timer. *)
Theorem X1_dropped_message_changes_nothing (e e' : emitter) (m : Message) :
  handle m e = Done (e', None) -> e' = e.
Proof.
  intros Hh. exact (dropped_unchanged _ _ Hh).
Qed.

Lemma X1_dropped_message_changes_nothing_witness :
  handle (MPoint {| p_time := 3; p_data := "cpu=1" |})
    (after [OfIdle (Idle.Expire 10); OfIdle Idle.RecvTimer;
            OfIdle (Idle.Emit 11 Accept)] idleA)
  = Done (after [OfIdle (Idle.Expire 10); OfIdle Idle.RecvTimer;
                 OfIdle (Idle.Emit 11 Accept)] idleA, None)
  /\ after [OfIdle (Idle.Expire 10); OfIdle Idle.RecvTimer;
            OfIdle (Idle.Emit 11 Accept)] idleA
     = after [OfIdle (Idle.Expire 10); OfIdle Idle.RecvTimer;
              OfIdle (Idle.Emit 11 Accept)] idleA.
Proof.
  split; [vm_compute; reflexivity|].
  apply (@X1_dropped_message_changes_nothing _ _
           (MPoint {| p_time := 3; p_data := "cpu=1" |})).
  vm_compute. reflexivity.
Defined.

(** X2: the handlers of a periodic emitter only read: whatever the message
    (other than a deletion of its own group) and whatever the reply, the
    emitter, its ticker included, is as before. *)
Theorem X2_periodic_handlers_read_only (p : Periodic.proc) (m : Message)
        (e' : emitter) (r : option Message) :
  own_delete (PeriodicE p) m = false ->
  handle m (PeriodicE p) = Done (e', r) ->
  e' = PeriodicE p.
Proof.
  simpl. intros Hown Hh.
  destruct (exec _ _ _ _) as [[n r']| |] eqn:Hex; simpl in Hh; try done.
  injection Hh as <- <-.
  assert (n = Periodic.obj p); [|subst n; destruct p; reflexivity].
  destruct m as [m|m|m|m|m|m]; simpl in Hex, Hown;
    unfold Periodic.DeleteGroup, Periodic.load, Load, Periodic.sem in Hex;
    step_cases; try reflexivity.
  rewrite bool_decide_eq_false in Hown. done.
Qed.

Lemma X2_periodic_handlers_read_only_witness :
  handle (MPoint {| p_time := 3; p_data := "cpu=1" |}) periodicA
  = Done (periodicA, Some (MPoint {| p_time := 3; p_data := "cpu=1" |}))
  /\ periodicA = PeriodicE periodicP.
Proof.
  split; [vm_compute; reflexivity|].
  apply (@X2_periodic_handlers_read_only periodicP
           (MPoint {| p_time := 3; p_data := "cpu=1" |}) periodicA
           (Some (MPoint {| p_time := 3; p_data := "cpu=1" |}))).
  - vm_compute. reflexivity.
  - vm_compute. reflexivity.
Defined.

(** X3: a point, batch point or barrier the idle emitter forwards re-arms
    its timer and changes nothing but the timer: the timer is armed
    afterwards, whatever it was before, and [lastT], the edges, [stopC],
    the wait group and the goroutine are as they were. *)
Theorem X3_idle_forwarded_message_rearms (p : Idle.proc) (m : Message)
        (e' : emitter) (t : Time) :
  timed m = Some t ->
  handle m (IdleE p) = Done (e', Some m) ->
  exists tm,
    e' = IdleE (Idle.set_obj (Idle.set_timer tm (Idle.obj p)) p)
    /\ Idle.armed tm = true.
Proof.
  simpl. intros Hm Hh.
  destruct (exec _ _ _ _) as [[n r']| |] eqn:Hex; simpl in Hh; try done.
  injection Hh as <- ->.
  destruct m as [m|m|m|m|m|m]; simpl in Hex, Hm; try done;
    unfold Idle.load, Load, Idle.sem in Hex; step_cases;
    eexists; (split; [reflexivity|reflexivity]).
Qed.

Lemma X3_idle_forwarded_message_rearms_witness :
  let p := idle_after [Idle.Expire 10] idleP in
  let m := MPoint {| p_time := 12; p_data := "cpu=1" |} in
  Idle.armed (Idle.timer (Idle.obj p)) = false
  /\ exists e' tm,
       handle m (IdleE p) = Done (e', Some m)
       /\ e' = IdleE (Idle.set_obj (Idle.set_timer tm (Idle.obj p)) p)
       /\ Idle.armed tm = true.
Proof.
  intros p m. split; [vm_compute; reflexivity|].
  pose (e' := match handle m (IdleE p) with
              | Done (e', _) => e'
              | _ => IdleE p
              end).
  assert (Hh : handle m (IdleE p) = Done (e', Some m)) by (vm_compute; reflexivity).
  destruct (@X3_idle_forwarded_message_rearms p m e' 12) as (tm & He & Ha).
  - vm_compute. reflexivity.
  - exact Hh.
  - exists e', tm. auto.
Defined.

Lemma Forward_edge verdict outs m o err k :
  Forward verdict outs m = Done (o, err) ->
  o !! k = (fun out => if reaches k verdict then Collect m out else out)
             <$> outs !! k.
Proof.
  unfold Forward. destruct verdict as [|j e|j]; simpl.
  - intros [= <- <-]. apply list_lookup_fmap.
  - destruct (Nat.ltb_spec j (length outs)) as [Hj|Hj]; [|done].
    intros [= <- <-]. destruct (Nat.ltb_spec k j) as [Hk|Hk].
    + rewrite lookup_app_l by (rewrite length_fmap, length_take; lia).
      rewrite list_lookup_fmap, lookup_take_lt by lia. reflexivity.
    + rewrite lookup_app_r by (rewrite length_fmap, length_take; lia).
      rewrite length_fmap, length_take, lookup_drop.
      rewrite Nat.min_l by lia.
      replace (j + (k - j))%nat with k by lia.
      destruct (outs !! k); reflexivity.
  - destruct (j <? length outs)%nat; done.
Qed.

Lemma estep_outs l e e' k :
  estep l e = Done e' ->
  outs_of e' !! k =
  (fun out => out ++ match delivered k l with
                     | Some nowT => [NewBarrierMessage (group_of e) nowT]
                     | None => []
                     end) <$> outs_of e !! k.
Proof.
  assert (Hid : forall (outs : list StatsEdge),
            outs !! k = (fun out => out ++ []) <$> outs !! k).
  { intros outs. destruct (outs !! k); simpl; rewrite ?app_nil_r; reflexivity. }
  destruct l as [l|l], e as [p|p]; unfold estep; try done.
  - destruct (Idle.step l p) as [q| |] eqn:E; intros H;
      try (cbv in H; discriminate).
    assert (e' = IdleE q) as -> by (cbv in H; congruence).
    apply idle_step_effect in E as (E & _).
    unfold outs_of, group_of, delivered.
    destruct l; try (destruct E as [_ ->]; apply Hid).
    destruct E as (_ & _ & _ & err & HF).
    rewrite (@Forward_edge _ _ _ _ _ k HF).
    destruct (reaches k verdict); [reflexivity|].
    destruct (_ !! k); simpl; rewrite ?app_nil_r; reflexivity.
  - destruct (Periodic.step l p) as [q| |] eqn:E; intros H;
      try (cbv in H; discriminate).
    assert (e' = PeriodicE q) as -> by (cbv in H; congruence).
    apply periodic_step_effect in E as (E & _).
    unfold outs_of, group_of, delivered.
    destruct l; try (destruct E as [_ ->]; apply Hid).
    destruct E as (_ & _ & _ & err & HF).
    rewrite (@Forward_edge _ _ _ _ _ k HF).
    destruct (reaches k verdict); [reflexivity|].
    destruct (_ !! k); simpl; rewrite ?app_nil_r; reflexivity.
Qed.

Lemma outs_run (s : list elabel) (e e' : emitter) (k : nat) :
  erun s e = Done e' ->
  length (outs_of e') = length (outs_of e)
  /\ outs_of e' !! k =
     (fun out => out ++ map (NewBarrierMessage (group_of e)) (omap (delivered k) s))
       <$> outs_of e !! k.
Proof.
  revert e. induction s as [|l s IH]; intros e Hr.
  - simpl in Hr. injection Hr as <-. split; [reflexivity|].
    simpl. destruct (outs_of e !! k); simpl; rewrite ?app_nil_r; reflexivity.
  - apply run_cons_Done in Hr as (m & Hl & Hr).
    destruct (IH _ Hr) as [Hlen Hk].
    destruct (estep_effect _ _ Hl) as (_ & _ & _ & Hg & _).
    split.
    + rewrite Hlen. apply Nat.le_antisymm.
      * destruct (le_lt_dec (length (outs_of m)) (length (outs_of e)));
          [assumption|exfalso].
        pose proof (@estep_outs _ _ _ (length (outs_of e)) Hl) as Hn.
        rewrite (lookup_ge_None_2 (outs_of e)) in Hn by lia. simpl in Hn.
        apply lookup_ge_None in Hn. lia.
      * destruct (le_lt_dec (length (outs_of e)) (length (outs_of m)));
          [assumption|exfalso].
        pose proof (@estep_outs _ _ _ (length (outs_of m)) Hl) as Hn.
        rewrite (lookup_ge_None_2 (outs_of m)) in Hn by lia.
        destruct (outs_of e !! length (outs_of m)) eqn:He; [done|].
        apply lookup_ge_None in He. lia.
    + rewrite Hk, (@estep_outs _ _ _ k Hl), Hg.
      destruct (outs_of e !! k); simpl; [|reflexivity].
      destruct (delivered k l); simpl; rewrite <- app_assoc; reflexivity.
Qed.


(** X4: what an emitter has put on an output edge is, in order, one barrier
    for each [emitBarrier] whose [Forward] got as far as that edge and whose
    message the edge took, for the emitter's own group and stamped with the
    clock reading of that emission; nothing else is ever added to an edge
    and nothing removed, and the emitter keeps the edges it was given. *)
Theorem X4_sink_holds_the_accepted_barriers (s : list elabel) (e e' : emitter)
        (k : nat) :
  erun s e = Done e' ->
  length (outs_of e') = length (outs_of e)
  /\ outs_of e' !! k =
     (fun out => out ++ map (NewBarrierMessage (group_of e)) (omap (delivered k) s))
       <$> outs_of e !! k.
Proof.
  intros Hr. exact (@outs_run s e e' k Hr).
Qed.

Lemma X4_sink_holds_the_accepted_barriers_witness :
  let s := [OfIdle (Idle.Expire 10); OfIdle Idle.RecvTimer;
            OfIdle (Idle.Emit 11 (Abort 1 "edge aborted")); OfIdle Idle.Reset;
            OfIdle (Idle.Expire 16); OfIdle Idle.RecvTimer;
            OfIdle (Idle.Emit 17 Accept)] in
  outs_of (after s idleA) !! 1%nat = Some [NewBarrierMessage groupA 17]
  /\ length (outs_of (after s idleA)) = 2%nat.
Proof.
  intros s.
  destruct (@X4_sink_holds_the_accepted_barriers s idleA (after s idleA) 1%nat)
    as [Hlen Hk].
  - vm_compute. reflexivity.
  - split; [rewrite Hk; vm_compute; reflexivity|rewrite Hlen; reflexivity].
Defined.

Lemma lastT_dominates s : forall e e' t0,
  lastT_of e = Some t0 ->
  clock_ok t0 (emissions s) = true ->
  erun s e = Done e' ->
  exists t1, lastT_of e' = Some t1 /\ t0 <= t1
             /\ forall T, In T (emissions s) -> T <= t1.
Proof.
  induction s as [|l s IH]; intros e e' t0 HT Hc Hr.
  - simpl in Hr. injection Hr as <-. exists t0.
    split; [done|]. split; [lia|]. intros T [].
  - apply run_cons_Done in Hr as (m & Hl & Hr).
    destruct (estep_effect _ _ Hl) as (HT' & _).
    unfold emissions in *. simpl in *.
    destruct (emission l) as [nowT|] eqn:El; simpl in *.
    + apply andb_true_iff in Hc as [Hle Hc]. apply Z.leb_le in Hle.
      destruct (IH m e' nowT HT' Hc Hr) as (t1 & ? & ? & Hall).
      exists t1. split; [done|]. split; [lia|].
      intros T [<-|HIn]; [lia|auto].
    + rewrite HT in HT'. eapply IH; eauto.
Qed.

(** X5: under a clock that does not go back, once a barrier stamped [T] has
    been emitted, every point, batch point or barrier with a time before
    [T] is dropped from then on, whatever has happened in between. *)
Theorem X5_late_after_any_emitted_barrier (e0 e : emitter) (s : list elabel)
        (m : Message) (t T : Time) :
  constructed e0 ->
  clock_ok zeroTime (emissions s) = true ->
  erun s e0 = Done e ->
  In T (emissions s) ->
  timed m = Some t ->
  t < T ->
  handle m e = Done (e, None).
Proof.
  intros Hc Hclock Hr HIn Hm Hlt.
  assert (H0 : lastT_of e0 = Some zeroTime).
  { destruct Hc as [| ? ? ? ? p Hp]; [reflexivity|].
    unfold Periodic.newPeriodicBarrier, Periodic.NewTicker in Hp.
    step_cases. reflexivity. }
  destruct (lastT_dominates _ _ H0 Hclock Hr) as (t1 & HT & _ & Hall).
  destruct (handle_timed e m Hm HT) as (e' & Hh & _).
  assert (Hb : Before t t1 = true).
  { unfold Before. apply Z.ltb_lt. specialize (Hall _ HIn). lia. }
  rewrite Hb in Hh. rewrite Hh.
  rewrite (dropped_unchanged _ _ Hh). reflexivity.
Qed.

Lemma X5_late_after_any_emitted_barrier_witness :
  handle (MPoint {| p_time := 8; p_data := "cpu=1" |})
    (after [OfPeriodic (Periodic.Tick 10); OfPeriodic Periodic.RecvTicker;
            OfPeriodic (Periodic.Emit 11 Accept); OfPeriodic (Periodic.Tick 20)]
       periodicA)
  = Done (after [OfPeriodic (Periodic.Tick 10); OfPeriodic Periodic.RecvTicker;
                 OfPeriodic (Periodic.Emit 11 Accept); OfPeriodic (Periodic.Tick 20)]
            periodicA, None).
Proof.
  apply (@X5_late_after_any_emitted_barrier periodicA _
           [OfPeriodic (Periodic.Tick 10); OfPeriodic Periodic.RecvTicker;
            OfPeriodic (Periodic.Emit 11 Accept); OfPeriodic (Periodic.Tick 20)]
           (MPoint {| p_time := 8; p_data := "cpu=1" |}) 8 11).
  - exact constructed_periodicA.
  - vm_compute. reflexivity.
  - vm_compute. reflexivity.
  - vm_compute. left. reflexivity.
  - vm_compute. reflexivity.
  - vm_compute. reflexivity.
Defined.

Lemma timer_open_constructed e : constructed e -> timer_open e.
Proof.
  destruct 1 as [| ? ? ? ? p Hp]; simpl; [reflexivity|].
  unfold Periodic.newPeriodicBarrier, Periodic.NewTicker in Hp.
  step_cases. reflexivity.
Qed.

Lemma estep_owed l e e' :
  timer_open e ->
  estep l e = Done e' ->
  timer_open e'
  /\ (match emission l with Some _ => 1 | None => 0 end + owed e'
      <= (if firing l then 1 else 0) + owed e)%nat.
Proof.
  destruct l as [l|l], e as [p|p]; simpl; try done; intros Hopen.
  - destruct (Idle.step l p) as [q| |] eqn:E; simpl; try done.
    intros [= <-]. simpl.
    unfold Idle.step, Idle.next, Idle.call, Idle.sem, Idle.load, Load,
      Idle.Timer_expire, Idle.emitBarrier, Forward, chan.recv, chan.close,
      chan.offer, wg_Done in E.
    destruct l; step_cases; (split; [simpl; congruence|]);
      repeat match goal with H : Idle.bg _ = _ |- _ => rewrite H end;
      repeat match goal with H : chan.buf _ = _ |- _ => rewrite H end;
      simpl; rewrite ?length_app; simpl; try lia; try congruence.
    all: destruct (Idle.bg p); simpl; lia.
  - destruct (Periodic.step l p) as [q| |] eqn:E; simpl; try done.
    intros [= <-]. simpl.
    unfold Periodic.step, Periodic.next, Periodic.call, Periodic.sem,
      Periodic.load, Load, Periodic.Ticker_tick, Periodic.emitBarrier, Forward,
      chan.recv, chan.send, chan.offer, wg_Done in E.
    destruct l; step_cases; (split; [simpl; congruence|]);
      repeat match goal with H : Periodic.bg _ = _ |- _ => rewrite H end;
      repeat match goal with H : chan.buf _ = _ |- _ => rewrite H end;
      simpl; rewrite ?length_app; simpl; try lia; try congruence.
    all: destruct (Periodic.bg p); simpl; lia.
Qed.

Lemma owed_bound s : forall e e',
  timer_open e ->
  erun s e = Done e' ->
  timer_open e'
  /\ (length (emissions s) + owed e' <= firings s + owed e)%nat.
Proof.
  induction s as [|l s IH]; intros e e' Hopen Hr.
  - simpl in Hr. injection Hr as <-. simpl. split; [done|lia].
  - apply run_cons_Done in Hr as (m & Hl & Hr).
    destruct (estep_owed _ _ Hopen Hl) as [Hopen' Hstep].
    destruct (IH _ _ Hopen' Hr) as [Hopen'' Hrest]. split; [done|].
    change (emissions (l :: s))
      with (match emission l with
            | Some y => y :: emissions s
            | None => emissions s
            end).
    change (firings (l :: s))
      with (length (if firing l then l :: List.filter firing s
                    else List.filter firing s)).
    unfold firings in Hrest.
    destruct (emission l), (firing l); simpl in *; lia.
Qed.

(** X6: a goroutine runs [emitBarrier] only in answer to a firing of its
    timer or ticker, once per firing received: on an emitter run from its
    constructor the emissions, together with the firings still waiting to
    be answered, never exceed the firings. *)
Theorem X6_one_emission_per_firing (e0 e : emitter) (s : list elabel) :
  constructed e0 ->
  erun s e0 = Done e ->
  (length (emissions s) + owed e <= firings s)%nat.
Proof.
  intros Hc Hr.
  destruct (owed_bound _ _ (timer_open_constructed Hc) Hr) as [_ Hb].
  assert (owed e0 = 0%nat); [|lia].
  destruct Hc as [| ? ? ? ? p Hp]; [reflexivity|].
  unfold Periodic.newPeriodicBarrier, Periodic.NewTicker in Hp.
  step_cases. reflexivity.
Qed.

Lemma X6_one_emission_per_firing_witness :
  let s := [OfIdle (Idle.Expire 10); OfIdle Idle.RecvTimer;
            OfIdle (Idle.Emit 11 Accept); OfIdle Idle.Reset;
            OfIdle (Idle.Expire 16)] in
  (length (emissions s) + owed (after s idleA) <= 2)%nat.
Proof.
  intros s.
  apply (@X6_one_emission_per_firing idleA (after s idleA) s).
  - constructor.
  - vm_compute. reflexivity.
Defined.

(** X7: on an emitter run from its constructor, in whatever state, the
    handler of any message other than a deletion of the emitter's own group
    returns: it neither blocks nor panics (the load of [lastT] always finds
    the time [Init] or [emitBarrier] stored). *)
Theorem X7_handlers_always_return (e0 e : emitter) (s : list elabel)
        (m : Message) :
  constructed e0 ->
  erun s e0 = Done e ->
  own_delete e m = false ->
  exists e' r, handle m e = Done (e', r).
Proof.
  intros Hc Hr Hown.
  assert (Hinv : einv e) by (eapply einv_run; eauto using einv_constructed).
  assert (HT : exists last, lastT_of e = Some last).
  { destruct e as [p|p]; destruct Hinv as (_ & _ & [last HT] & _); eauto. }
  destruct HT as [last HT].
  destruct (timed m) as [t|] eqn:Hm.
  - destruct (handle_timed e m Hm HT) as (e' & Hh & _). eauto.
  - destruct m as [m|m|m|m|m|m]; simpl in Hm; try done.
    + destruct e as [[]|[]]; simpl; eauto.
    + destruct e as [[]|[]]; simpl; eauto.
    + simpl in Hown. rewrite bool_decide_eq_false in Hown.
      destruct e as [p|p]; simpl in *;
        unfold Idle.DeleteGroup, Periodic.DeleteGroup;
        (destruct (decide _); [done|]); simpl; eauto.
Qed.

Lemma X7_handlers_always_return_witness :
  exists e' r,
    handle (MDeleteGroup {| dg_id := "host=b" |})
      (after [OfIdle Idle.CallStop; OfIdle Idle.Next] idleA) = Done (e', r).
Proof.
  apply (@X7_handlers_always_return idleA _ [OfIdle Idle.CallStop; OfIdle Idle.Next]).
  - constructor.
  - vm_compute. reflexivity.
  - vm_compute. reflexivity.
Defined.

Lemma stopC_unclosed_run s e0 e :
  constructed e0 -> erun s e0 = Done e -> stopC_unclosed e.
Proof.
  intros Hc. apply (run_invariant estep stopC_unclosed).
  - intros [l|l] [p|p] e'; simpl; try done.
    + destruct (Idle.step l p) as [q| |] eqn:E; simpl; try done.
      intros _ [= <-]. exact I.
    + destruct (Periodic.step l p) as [q| |] eqn:E; simpl; try done.
      intros Hopen [= <-]. simpl.
      unfold Periodic.step, Periodic.next, Periodic.call, Periodic.sem,
        Periodic.load, Load, Periodic.Ticker_tick, Periodic.emitBarrier,
        Forward, chan.recv, chan.send, chan.offer, wg_Done in E.
      destruct l; step_cases; simpl; congruence.
  - destruct Hc as [| ? ? ? ? p Hp]; simpl; [exact I|].
    unfold Periodic.newPeriodicBarrier, Periodic.NewTicker in Hp.
    step_cases. reflexivity.
Qed.

Lemma idle_step_panic l p why :
  idle_inv p ->
  Idle.step l p = Panic why ->
  (exists k, l = Idle.Next
             /\ Idle.fg p = Some (Do Idle.CloseStopC k)
             /\ chan.closed (Idle.stopC (Idle.obj p)) = true
             /\ why = "close of closed channel"%string)
  \/ (exists nowT k, l = Idle.Emit nowT (ClosedAt k)
                     /\ (k < length (Idle.outs (Idle.obj p)))%nat
                     /\ why = "send on closed channel"%string).
Proof.
  intros (Hwg & _ & [last HT] & _) E.
  unfold Idle.step, Idle.next, Idle.call, Idle.sem, Idle.load, Load,
    Idle.Timer_expire, Idle.emitBarrier, Forward, chan.recv, chan.close,
    chan.offer, wg_Done in E.
  destruct l; step_cases; try congruence; try lia.
  all: try (match goal with H : _ = _ |- _ => rewrite H in Hwg end; lia).
  all: try (left; eexists; repeat split; eauto; fail).
  all: right; eexists; eexists; split; [reflexivity|];
       split; [apply Nat.ltb_lt; assumption|reflexivity].
Qed.

Lemma periodic_step_panic l p why :
  periodic_inv p ->
  chan.closed (Periodic.stopC (Periodic.obj p)) = false ->
  Periodic.step l p = Panic why ->
  exists nowT k, l = Periodic.Emit nowT (ClosedAt k)
                 /\ (k < length (Periodic.outs (Periodic.obj p)))%nat
                 /\ why = "send on closed channel"%string.
Proof.
  intros (Hwg & _ & [last HT] & _) Hopen E.
  unfold Periodic.step, Periodic.next, Periodic.call, Periodic.sem,
    Periodic.load, Load, Periodic.Ticker_tick, Periodic.emitBarrier, Forward,
    chan.recv, chan.send, chan.offer, wg_Done in E.
  destruct l; step_cases; try congruence; try lia.
  all: try (match goal with H : _ = _ |- _ => rewrite H in Hwg end; lia).
  all: eexists; eexists; split; [reflexivity|];
       split; [apply Nat.ltb_lt; assumption|reflexivity].
Qed.

(** X8: an emitter run from its constructor panics in two places only: at
    the [close(n.stopC)] of an idle emitter whose [stopC] is already
    closed, and in [emitBarrier], where [Forward] sends on an output edge
    that is closed.  Nothing else in the goroutines panics (the deferred
    [wg.Done()] finds the counter at one), no handler does, and a periodic
    emitter never panics in [Stop]. *)
Theorem X8_the_only_panics (e0 e : emitter) (s : list elabel) (l : elabel)
        (why : string) :
  constructed e0 ->
  erun s e0 = Done e ->
  estep l e = Panic why ->
  (exists p k,
      e = IdleE p /\ l = OfIdle Idle.Next
      /\ Idle.fg p = Some (Do Idle.CloseStopC k)
      /\ chan.closed (Idle.stopC (Idle.obj p)) = true
      /\ why = "close of closed channel"%string)
  \/ (exists nowT k,
        l = emit_of e nowT (ClosedAt k)
        /\ (k < length (outs_of e))%nat
        /\ why = "send on closed channel"%string).
Proof.
  intros Hc Hr Hp.
  assert (Hinv : einv e) by (eapply einv_run; eauto using einv_constructed).
  pose proof (stopC_unclosed_run _ Hc Hr) as Hopen.
  destruct l as [l|l], e as [p|p]; simpl in Hp; try done.
  - destruct (Idle.step l p) as [q| |] eqn:E; simpl in Hp; try done.
    injection Hp as ->.
    destruct (idle_step_panic _ Hinv E)
      as [(k & -> & Hfg & Hcl & ->)|(nowT & k & -> & Hk & ->)].
    + left. exists p, k. auto.
    + right. exists nowT, k. auto.
  - destruct (Periodic.step l p) as [q| |] eqn:E; simpl in Hp; try done.
    injection Hp as ->.
    destruct (periodic_step_panic _ Hinv Hopen E) as (nowT & k & -> & Hk & ->).
    right. exists nowT, k. auto.
Qed.

Lemma X8_the_only_panics_witness :
  let e := after [OfIdle (Idle.Expire 10); OfIdle Idle.RecvTimer] idleA in
  let l := OfIdle (Idle.Emit 11 (ClosedAt 1)) in
  estep l e = Panic "send on closed channel"
  /\ ((exists p k,
         e = IdleE p /\ l = OfIdle Idle.Next
         /\ Idle.fg p = Some (Do Idle.CloseStopC k)
         /\ chan.closed (Idle.stopC (Idle.obj p)) = true
         /\ "send on closed channel"%string = "close of closed channel"%string)
      \/ (exists nowT k,
            l = emit_of e nowT (ClosedAt k)
            /\ (k < length (outs_of e))%nat
            /\ "send on closed channel"%string = "send on closed channel"%string)).
Proof.
  intros e l. split; [vm_compute; reflexivity|].
  apply (@X8_the_only_panics idleA e
           [OfIdle (Idle.Expire 10); OfIdle Idle.RecvTimer] l).
  - constructor.
  - vm_compute. reflexivity.
  - vm_compute. reflexivity.
Defined.

(** *** Emitters and their stops *)

Lemma timer_stop_closed_mono c :
  forall b, timer_stop_closed b c -> timer_stop_closed true c.
Proof.
  induction c as [r|k IH|i k IH]; simpl; intros b Hw; auto.
  - intros t. eauto.
  - destruct i; simpl in *; eauto. destruct Hw; eauto.
Qed.

Lemma timer_stop_closed_receive n m b : timer_stop_closed b (Idle.receive n m).
Proof.
  destruct m as [m|m|m|m|m|m]; simpl; auto;
    unfold Idle.DeleteGroup; try (intros t; destruct (negb _); simpl; auto).
  destruct (decide _); simpl; auto.
Qed.

Lemma idle_stop_inv_step l p p' :
  idle_inv p -> idle_stop_inv p -> Idle.step l p = Done p' -> idle_stop_inv p'.
Proof.
  intros (_ & _ & _ & Hcap) (Hbuf & Hfg & Hrun) Hs.
  unfold Idle.step, Idle.next, Idle.call, Idle.sem, Idle.load, Load,
    Idle.Timer_expire, Idle.emitBarrier, Forward, chan.recv, chan.close,
    chan.offer, chan.has_room, wg_Done in Hs.
  destruct l; step_cases; unfold idle_stop_inv; simpl in *.
  all: repeat match goal with
              | H : chan.closed _ = _ |- _ => rewrite H in *
              | H : Idle.bg _ = _ |- _ => rewrite H in *
              end.
  all: try (pose proof (Hfg _ eq_refl) as Hw; simpl in Hw).
  all: (split; [try done; congruence|]).
  all: (split; [intros c' Hc'; simplify_eq;
                eauto using timer_stop_closed_mono, timer_stop_closed_receive;
                try (simpl; tauto); intuition (eauto using timer_stop_closed_mono)|]).
  all: try (intros Hcl; try done; specialize (Hrun Hcl);
            intuition (try congruence; eauto); fail).
  - intros Hcl. specialize (Hrun Hcl). destruct Hrun as (? & ? & _).
    repeat split; auto. intros _. right.
    destruct (chan.buf (Idle.C (Idle.timer (Idle.obj p)))); done.
  - intros Hcl. specialize (Hrun Hcl). destruct Hrun as (? & ? & _).
    repeat split; auto. intros _. right.
    match goal with
    | Hroom : (_ <? _)%nat = false |- _ =>
        apply Nat.ltb_ge in Hroom; rewrite Hcap in Hroom;
        destruct (chan.buf (Idle.C (Idle.timer (Idle.obj p)))); simpl in *;
        [lia|done]
    end.
Qed.


Lemma periodic_body_receive n m : periodic_body (Periodic.receive n m).
Proof.
  destruct m as [m|m|m|m|m|m]; simpl; auto;
    unfold Periodic.DeleteGroup;
    try (intros t; destruct (negb _); simpl; eauto).
  destruct (decide _); simpl; auto.
Qed.

Lemma unwaited_receive n m : unwaited (Some (Periodic.receive n m)) = 0%nat.
Proof.
  destruct m as [m|m|m|m|m|m]; simpl; auto.
  unfold Periodic.DeleteGroup. destruct (decide _); reflexivity.
Qed.

Lemma periodic_stop_inv_step l p p' :
  periodic_stop_inv p -> Periodic.step l p = Done p' -> periodic_stop_inv p'.
Proof.
  intros (Hcl & Hcap & Hfg & Hcount & Hact) Hs.
  unfold Periodic.step, Periodic.next, Periodic.call, Periodic.sem,
    Periodic.load, Load, Periodic.Ticker_tick, Periodic.emitBarrier, Forward,
    chan.recv, chan.send, chan.offer, chan.has_room, wg_Done in Hs.
  destruct l; step_cases; unfold periodic_stop_inv; simpl.
  all: repeat match goal with
              | H : Periodic.bg _ = _ |- _ => rewrite H in *
              | H : chan.buf _ = _ |- _ => rewrite H in *
              | H : Periodic.fg _ = _ |- _ => rewrite H in *
              end.
  all: try (pose proof (Hfg _ eq_refl) as Hw; unfold periodic_body in Hw;
            repeat (case_match; try done; subst)).
  all: rewrite ?unwaited_receive; unfold unwaited in *;
       simpl in *; rewrite ?length_app; simpl.
  all: try match goal with
           | Hw : forall t, exists r, _ = Return r |- context [Some (?k ?a)] =>
               destruct (Hw a) as [r0 Hr0]; rewrite Hr0
           end.
  all: repeat split; auto; try lia; try tauto.
  all: intros c' Hc'; simplify_eq; simpl; eauto using periodic_body_receive.
Qed.

Lemma estop_inv_constructed e : constructed e -> estop_inv e.
Proof.
  destruct 1 as [| ? ? ? ? p Hp]; simpl.
  - split; [|apply idle_inv_new].
    unfold idle_stop_inv; simpl. repeat split; auto; done.
  - split; [|eapply periodic_inv_new; eauto].
    unfold Periodic.newPeriodicBarrier, Periodic.NewTicker in Hp.
    step_cases. unfold periodic_stop_inv; simpl. repeat split; auto; done.
Qed.

Lemma estop_inv_step l e e' : estop_inv e -> estep l e = Done e' -> estop_inv e'.
Proof.
  destruct l as [l|l], e as [p|p]; simpl; try done.
  - destruct (Idle.step l p) as [q| |] eqn:E; simpl; try done.
    intros [Hs Hi] [= <-]. simpl.
    eauto using idle_stop_inv_step, idle_inv_step.
  - destruct (Periodic.step l p) as [q| |] eqn:E; simpl; try done.
    intros [Hs Hi] [= <-]. simpl.
    eauto using periodic_stop_inv_step, periodic_inv_step.
Qed.

Lemma estop_inv_run s e0 e : constructed e0 -> erun s e0 = Done e -> estop_inv e.
Proof.
  intros Hc. apply (run_invariant estep estop_inv).
  - intros l p p'. apply estop_inv_step.
  - apply estop_inv_constructed, Hc.
Qed.

(** A first [Stop], from its entry to its return [r]: the statements that
    follow the entry, none of them a new call, and the state they leave,
    which does not depend on [r]. *)
Lemma idle_first_stop p :
  idle_inv p -> idle_stop_inv p ->
  Idle.fg p = None ->
  chan.closed (Idle.stopC (Idle.obj p)) = false ->
  exists s n',
    forallb (fun l => negb (enters (OfIdle l))) s = true
    /\ forall r,
         run Idle.step s (Idle.set_fg (Some (Idle.Stop (Return r))) p)
         = Done {| Idle.obj := n'; Idle.bg := Idle.Exited; Idle.fg := None;
                   Idle.replies := Idle.replies p ++ [r]; Idle.stops := 1 |}.
Proof.
  intros (Hwg & Hst & _ & _) (Hbuf & _ & Hrun) Hfg Hcl.
  destruct (Hrun Hcl) as (Hr1 & Hr2 & _).
  assert (Hz : Idle.stops p = 0%nat).
  { destruct (Idle.stops p); [done|]. exfalso. apply Hr2, Hst. done. }
  destruct p as [[nm g i lt tm w o [cp bf cl]] bg fg rs st].
  simpl in *. subst fg bf cl st.
  destruct bg; try done; subst w.
  - exists [Idle.Next; Idle.Next; Idle.RecvStop; Idle.WgDone; Idle.Next; Idle.Next].
    eexists. split; [reflexivity|]. intros r. cbv. reflexivity.
  - exists [Idle.Next; Idle.Next; Idle.Emit 0 Accept; Idle.Reset; Idle.RecvStop;
            Idle.WgDone; Idle.Next; Idle.Next].
    eexists. split; [reflexivity|]. intros r. cbv. reflexivity.
  - exists [Idle.Next; Idle.Next; Idle.Reset; Idle.RecvStop; Idle.WgDone;
            Idle.Next; Idle.Next].
    eexists. split; [reflexivity|]. intros r. cbv. reflexivity.
Qed.

Lemma periodic_first_stop p :
  periodic_inv p -> periodic_stop_inv p ->
  Periodic.fg p = None ->
  chan.buf (Periodic.stopC (Periodic.obj p)) = [] ->
  received (Periodic.bg p) = 0%nat ->
  exists s n',
    forallb (fun l => negb (enters (OfPeriodic l))) s = true
    /\ forall r,
         run Periodic.step s
           (Periodic.set_fg (Some (Periodic.Stop (Return r))) p)
         = Done {| Periodic.obj := n'; Periodic.bg := Periodic.Exited;
                   Periodic.fg := None;
                   Periodic.replies := Periodic.replies p ++ [r];
                   Periodic.stops := 1 |}.
Proof.
  intros (Hwg & Hst & _ & _) (Hcl & Hcap & _ & Hcount & _) Hfg Hbuf Hrec.
  rewrite Hfg, Hbuf, Hrec in Hcount. unfold unwaited in Hcount. simpl in Hcount.
  assert (Hz : Periodic.stops p = 0%nat) by lia.
  destruct p as [[nm g lt tm w o [cp bf cl]] bg fg rs st].
  simpl in *. subst fg bf cl st cp.
  destruct bg; try done; subst w.
  - exists [Periodic.Next; Periodic.Next; Periodic.RecvStop; Periodic.WgDone;
            Periodic.Next; Periodic.Next].
    eexists. split; [reflexivity|]. intros r. cbv. reflexivity.
  - exists [Periodic.Next; Periodic.Next; Periodic.Emit 0 Accept; Periodic.RecvStop;
            Periodic.WgDone; Periodic.Next; Periodic.Next].
    eexists. split; [reflexivity|]. intros r. cbv. reflexivity.
Qed.

Lemma forallb_fmap {A B} (f : B -> bool) (g : A -> B) (l : list A) :
  forallb f (map g l) = forallb (fun x => f (g x)) l.
Proof. induction l as [|x l IH]; simpl; [reflexivity|]. rewrite IH. reflexivity. Qed.

Lemma idle_not_calling p : calling (IdleE p) = false -> Idle.fg p = None.
Proof.
  simpl. intros Hcall. destruct (Idle.fg p); [|done].
  rewrite bool_decide_eq_false in Hcall. destruct Hcall. eauto.
Qed.

Lemma periodic_not_calling p : calling (PeriodicE p) = false -> Periodic.fg p = None.
Proof.
  simpl. intros Hcall. destruct (Periodic.fg p); [|done].
  rewrite bool_decide_eq_false in Hcall. destruct Hcall. eauto.
Qed.

(** [n.Stop()] called from outside is the call [call_Stop] enters, and so
    is the handler of a deletion of the emitter's own group, which returns
    the message afterwards. *)
Lemma stop_of_call e : estep (stop_of e) e = call_Stop None e.
Proof.
  destruct e as [p|p]; simpl; unfold Idle.step, Periodic.step.
  - destruct (Idle.bg p); reflexivity.
  - destruct (Periodic.bg p); reflexivity.
Qed.

Lemma recv_own_delete_call e m :
  dg_id m = ID (group_of e) ->
  estep (recv_of e (MDeleteGroup m)) e = call_Stop (Some (MDeleteGroup m)) e.
Proof.
  intros Heq. destruct e as [p|p]; simpl in *;
    unfold Idle.step, Periodic.step; simpl;
    unfold Idle.DeleteGroup, Periodic.DeleteGroup;
    (destruct (decide _); [|done]).
  - destruct (Idle.bg p); reflexivity.
  - destruct (Periodic.bg p); reflexivity.
Qed.

(** The first [Stop] of an emitter can be run to its return. *)
Lemma stop_schedule e :
  estop_inv e -> calling e = false -> unstopped e = true ->
  exists s' c,
    forallb (fun l => negb (enters l)) s' = true
    /\ forall r, exists e1 e',
         call_Stop r e = Done e1 /\ erun s' e1 = Done e'
         /\ calling e' = false /\ exited e' = true /\ stops_of e' = 1%nat
         /\ replies_of e' = replies_of e ++ [r]
         /\ core e' = c.
Proof.
  intros Hinv Hcall Hun.
  destruct e as [p|p]; destruct Hinv as [Hs Hi].
  - pose proof (idle_not_calling _ Hcall) as Hfg.
    simpl in Hun. apply negb_true_iff in Hun.
    destruct (idle_first_stop Hi Hs Hfg Hun) as (s' & n' & Hen & Hrun).
    exists (map OfIdle s'), (inl (n', Idle.Exited)).
    split; [rewrite forallb_fmap; exact Hen|].
    intros r. exists (IdleE (Idle.set_fg (Some (Idle.Stop (Return r))) p)).
    eexists. split.
    + unfold call_Stop, Idle.call. rewrite Hfg. reflexivity.
    + split; [rewrite erun_idle, (Hrun r); reflexivity|]. simpl. auto 10.
  - pose proof (periodic_not_calling _ Hcall) as Hfg.
    simpl in Hun. apply andb_true_iff in Hun as [Hbuf Hbg].
    apply bool_decide_eq_true in Hbuf.
    assert (Hrec : received (Periodic.bg p) = 0%nat)
      by (destruct (Periodic.bg p); done).
    destruct (periodic_first_stop Hi Hs Hfg Hbuf Hrec) as (s' & n' & Hen & Hrun).
    exists (map OfPeriodic s'), (inr (n', Periodic.Exited)).
    split; [rewrite forallb_fmap; exact Hen|].
    intros r. exists (PeriodicE (Periodic.set_fg (Some (Periodic.Stop (Return r))) p)).
    eexists. split.
    + unfold call_Stop, Periodic.call. rewrite Hfg. reflexivity.
    + split; [rewrite erun_periodic, (Hrun r); reflexivity|]. simpl. auto 10.
Qed.

(** A [Stop] that has returned has returned [r], after its wait, with the
    goroutine gone. *)
Lemma stop_returned e r e1 s e2 :
  einv e ->
  call_Stop r e = Done e1 ->
  erun s e1 = Done e2 ->
  (length (replies_of e) < length (replies_of e2))%nat ->
  (exists rest, replies_of e2 = replies_of e ++ r :: rest)
  /\ exited e2 = true.
Proof.
  intros Hinv Hcall Hrun Hlen.
  destruct (call_Stop_enters _ _ Hcall) as [Hst Hi1]. specialize (Hi1 Hinv).
  eapply (run_invariant estep (estopping r (replies_of e) (stops_of e)))
    in Hst; eauto using estopping_step.
  destruct (estopping_replied _ _ _ _ Hst Hlen) as [Hrest HN].
  split; [exact Hrest|].
  apply stops_exited; [eapply einv_run; eauto|lia].
Qed.

(** X9: the first [Stop] of an emitter is safe: from whatever state the
    emitter has reached without being stopped, with no call in progress,
    there is a schedule in which [Stop] neither panics nor stays blocked
    but returns, with the goroutine gone. *)
Theorem X9_first_stop_can_return (e0 e : emitter) (s : list elabel) :
  constructed e0 ->
  erun s e0 = Done e ->
  calling e = false ->
  unstopped e = true ->
  exists s' e',
    erun (stop_of e :: s') e = Done e'
    /\ calling e' = false /\ exited e' = true
    /\ replies_of e' = replies_of e ++ [None]
    /\ stops_of e' = 1%nat.
Proof.
  intros Hc Hr Hcall Hun.
  pose proof (estop_inv_run _ Hc Hr) as Hinv.
  destruct (@stop_schedule e Hinv Hcall Hun) as (s' & c & _ & Hall).
  destruct (Hall None) as (e1 & e' & H1 & Hrun & Hcall' & Hx & Hst & Hrep & _).
  exists s', e'. split; [|auto].
  change (erun (stop_of e :: s') e) with (x ← estep (stop_of e) e; erun s' x).
  rewrite stop_of_call, H1. exact Hrun.
Qed.

Lemma X9_first_stop_can_return_witness :
  let s := [OfIdle (Idle.Expire 10); OfIdle Idle.RecvTimer] in
  exists s' e',
    erun (stop_of (after s idleA) :: s') (after s idleA) = Done e'
    /\ calling e' = false /\ exited e' = true
    /\ replies_of e' = replies_of (after s idleA) ++ [None]
    /\ stops_of e' = 1%nat.
Proof.
  intros s.
  apply (@X9_first_stop_can_return idleA (after s idleA) s).
  - constructor.
  - vm_compute. reflexivity.
  - vm_compute. reflexivity.
  - vm_compute. reflexivity.
Defined.

(** C2: a call of [Stop] that has returned has found the background
    goroutine gone, so [Stop] does not return before the goroutine has
    exited; from then on no schedule makes the emitter run [emitBarrier]:
    the edges and [lastT] stay as they are, even where the timer or ticker
    fires.  And [Stop] does return: on an emitter no [Stop] has reached
    there is a schedule in which the call runs to its end. *)
Theorem C2_stop_blocks_and_silences (e0 e : emitter) (s : list elabel) :
  constructed e0 ->
  erun s e0 = Done e ->
  calling e = false ->
  (unstopped e = true ->
     exists s1 e1,
       erun (stop_of e :: s1) e = Done e1
       /\ replies_of e1 = replies_of e ++ [None]
       /\ calling e1 = false)
  /\ (forall s1 e1,
        erun (stop_of e :: s1) e = Done e1 ->
        (length (replies_of e) < length (replies_of e1))%nat ->
        exited e1 = true
        /\ forall s2 e2, erun s2 e1 = Done e2 ->
             exited e2 = true /\ emissions s2 = []
             /\ outs_of e2 = outs_of e1 /\ lastT_of e2 = lastT_of e1).
Proof.
  intros Hc Hr Hcall.
  pose proof (estop_inv_run _ Hc Hr) as Hsinv.
  assert (Hinv : einv e) by (eapply einv_run; eauto using einv_constructed).
  split.
  - intros Hun.
    destruct (@stop_schedule e Hsinv Hcall Hun) as (s' & c & _ & Hall).
    destruct (Hall None) as (e1 & e' & H1 & Hrun & Hcall' & _ & _ & Hrep & _).
    exists s', e'. split; [|auto].
    change (erun (stop_of e :: s') e) with (x ← estep (stop_of e) e; erun s' x).
    rewrite stop_of_call, H1. exact Hrun.
  - intros s1 e1 Hrun Hlen.
    apply run_cons_Done in Hrun as (m & Hm & Hrun). rewrite stop_of_call in Hm.
    destruct (@stop_returned e None m s1 e1 Hinv Hm Hrun Hlen) as [_ Hx].
    split; [exact Hx|]. intros s2 e2 Hr2.
    destruct (exited_silent _ _ Hx Hr2) as (? & ? & ? & ?). auto.
Qed.

Lemma C2_stop_blocks_and_silences_witness :
  let s := [OfIdle (Idle.Expire 7); OfIdle Idle.RecvTimer] in
  let e := after s idleA in
  let s1 := [OfIdle Idle.Next; OfIdle Idle.Next; OfIdle (Idle.Emit 8 Accept);
             OfIdle Idle.Reset; OfIdle Idle.RecvStop; OfIdle Idle.WgDone;
             OfIdle Idle.Next; OfIdle Idle.Next] in
  (exists s1 e1,
      erun (stop_of e :: s1) e = Done e1
      /\ replies_of e1 = replies_of e ++ [None]
      /\ calling e1 = false)
  /\ exited (after (stop_of e :: s1) e) = true
  /\ calling (after (stop_of e :: firstn 4 s1) e) = true
  /\ exited (after (stop_of e :: firstn 4 s1) e) = false.
Proof.
  intros s e s1.
  destruct (@C2_stop_blocks_and_silences idleA e s) as [Hex Hall].
  - constructor.
  - vm_compute. reflexivity.
  - vm_compute. reflexivity.
  - split; [apply Hex; vm_compute; reflexivity|].
    split; [|split; vm_compute; reflexivity].
    apply (Hall s1 (after (stop_of e :: s1) e)).
    + vm_compute. reflexivity.
    + vm_compute. lia.
Defined.

(** C7, as the code has it: a deletion message for another group is
    returned with the emitter left exactly as it was.  One for the
    emitter's own group runs [Stop] on the consumer's goroutine and returns
    the message afterwards: on an emitter no [Stop] has reached, the call
    can be run to its return, by the statements that complete an explicit
    [Stop] and into the state these leave; and whenever the call has
    returned, it has returned the message, the goroutine has exited and no
    barrier follows.  In the node, handing a deletion message to one
    receiver changes no other emitter. *)
Theorem C7_delete_group_stops_own (e0 e : emitter) (s0 : list elabel)
        (m : DeleteGroupMessage) :
  constructed e0 ->
  erun s0 e0 = Done e ->
  calling e = false ->
  (dg_id m <> ID (group_of e) ->
     handle (MDeleteGroup m) e = Done (e, Some (MDeleteGroup m)))
  /\ (dg_id m = ID (group_of e) ->
      (unstopped e = true ->
         exists s1 e1 e1',
           erun (recv_of e (MDeleteGroup m) :: s1) e = Done e1
           /\ erun (stop_of e :: s1) e = Done e1'
           /\ replies_of e1 = replies_of e ++ [Some (MDeleteGroup m)]
           /\ replies_of e1' = replies_of e ++ [None]
           /\ core e1 = core e1'
           /\ calling e1 = false /\ exited e1 = true)
      /\ (forall s1 e1,
            erun (recv_of e (MDeleteGroup m) :: s1) e = Done e1 ->
            (length (replies_of e) < length (replies_of e1))%nat ->
            (exists rest,
                replies_of e1 = replies_of e ++ Some (MDeleteGroup m) :: rest)
            /\ exited e1 = true
            /\ forall s2 e2, erun s2 e1 = Done e2 ->
                 exited e2 = true /\ emissions s2 = []
                 /\ outs_of e2 = outs_of e1 /\ lastT_of e2 = lastT_of e1))
  /\ (forall w r l w' r',
        wstep (Deliver r (MDeleteGroup m)) w = Done w'
        \/ wstep (Sched r l) w = Done w' ->
        r' <> r -> heap w' !! r' = heap w !! r').
Proof.
  intros Hc Hr Hcall.
  pose proof (estop_inv_run _ Hc Hr) as Hsinv.
  assert (Hinv : einv e) by (eapply einv_run; eauto using einv_constructed).
  split; [|split].
  - intros Hne. destruct e as [[]|[]]; simpl in *;
      unfold Idle.DeleteGroup, Periodic.DeleteGroup; simpl;
      destruct (decide _); [done|reflexivity|done|reflexivity].
  - intros Heq. split.
    + intros Hun.
      destruct (@stop_schedule e Hsinv Hcall Hun) as (s' & c & _ & Hall).
      destruct (Hall (Some (MDeleteGroup m)))
        as (e1 & e' & H1 & Hrun & Hcall' & Hx & _ & Hrep & Hcore).
      destruct (Hall None)
        as (e2 & e'' & H2 & Hrun2 & _ & _ & _ & Hrep2 & Hcore2).
      exists s', e', e''. split; [|split].
      * change (erun (recv_of e (MDeleteGroup m) :: s') e)
          with (x ← estep (recv_of e (MDeleteGroup m)) e; erun s' x).
        rewrite (recv_own_delete_call _ _ Heq), H1. exact Hrun.
      * change (erun (stop_of e :: s') e)
          with (x ← estep (stop_of e) e; erun s' x).
        rewrite stop_of_call, H2. exact Hrun2.
      * repeat split; auto. congruence.
    + intros s1 e1 Hrun Hlen.
      apply run_cons_Done in Hrun as (m1 & Hm & Hrun).
      rewrite (recv_own_delete_call _ _ Heq) in Hm.
      destruct (@stop_returned e (Some (MDeleteGroup m)) m1 s1 e1 Hinv Hm Hrun Hlen)
        as [Hrest Hx].
      split; [exact Hrest|]. split; [exact Hx|]. intros s2 e2 Hr2.
      destruct (exited_silent _ _ Hx Hr2) as (? & ? & ? & ?). auto.
  - intros w r l w' r' [Hs|Hs] Hne; unfold wstep in Hs.
    + destruct (bool_decide (stopping w = None) && quiescent w); [|done].
      eauto using at_emitter_frame.
    + destruct (enters l); [done|]. eauto using at_emitter_frame.
Qed.

Lemma C7_delete_group_stops_own_witness :
  let s := [OfIdle (Idle.Expire 10); OfIdle Idle.RecvTimer] in
  let e := after s idleA in
  let del := {| dg_id := "host=a" |} in
  let other := {| dg_id := "host=b" |} in
  handle (MDeleteGroup other) e = Done (e, Some (MDeleteGroup other))
  /\ exists s1 e1 e1',
       erun (recv_of e (MDeleteGroup del) :: s1) e = Done e1
       /\ erun (stop_of e :: s1) e = Done e1'
       /\ replies_of e1 = replies_of e ++ [Some (MDeleteGroup del)]
       /\ replies_of e1' = replies_of e ++ [None]
       /\ core e1 = core e1'
       /\ calling e1 = false /\ exited e1 = true.
Proof.
  intros s e del other. split.
  - refine (proj1 (@C7_delete_group_stops_own idleA e s other _ _ _) _).
    + constructor.
    + vm_compute. reflexivity.
    + vm_compute. reflexivity.
    + vm_compute. discriminate.
  - refine (proj1 (proj1 (proj2 (@C7_delete_group_stops_own idleA e s del _ _ _)) _) _).
    + constructor.
    + vm_compute. reflexivity.
    + vm_compute. reflexivity.
    + vm_compute. reflexivity.
    + vm_compute. reflexivity.
Defined.

(** C7 as the specification words it does not hold of every emitter: on an
    idle emitter a [Stop] has reached before, the handler of a deletion of
    its own group panics at [close(n.stopC)], and the message is not
    returned. *)
Lemma C7_deletion_of_stopped_emitter_panics :
  let s := [OfIdle Idle.CallStop; OfIdle Idle.Next; OfIdle Idle.Next;
            OfIdle Idle.RecvStop; OfIdle Idle.WgDone; OfIdle Idle.Next;
            OfIdle Idle.Next] in
  let del := MDeleteGroup {| dg_id := "host=a" |} in
  exists e,
    constructed idleA /\ erun s idleA = Done e
    /\ calling e = false /\ own_delete e del = true
    /\ handle del e = Panic "close of closed channel"
    /\ erun [recv_of e del; next_of e] e = Panic "close of closed channel".
Proof.
  intros s del. eexists.
  split; [constructor|]. split; [vm_compute; reflexivity|].
  repeat split; vm_compute; reflexivity.
Qed.

(** X10: a periodic emitter tolerates a second [Stop]: once its first
    [Stop] has returned, the next one finds room in [stopC], finds the
    wait group at zero and returns in four statements, leaving its value
    in [stopC]. *)
Theorem X10_periodic_second_stop_returns (e0 : emitter) (s : list elabel)
        (p : Periodic.proc) :
  constructed e0 ->
  erun s e0 = Done (PeriodicE p) ->
  Periodic.fg p = None ->
  Periodic.stops p = 1%nat ->
  exists p',
    run Periodic.step
      [Periodic.CallStop; Periodic.Next; Periodic.Next; Periodic.Next; Periodic.Next] p
    = Done p'
    /\ Periodic.fg p' = None
    /\ Periodic.stops p' = 2%nat
    /\ Periodic.replies p' = Periodic.replies p ++ [None]
    /\ chan.buf (Periodic.stopC (Periodic.obj p')) = [true].
Proof.
  intros Hc Hr Hfg Hst.
  destruct (estop_inv_run _ Hc Hr)
    as [(Hcl & Hcap & _ & Hcount & _) (Hwg & Hex & _ & _)].
  assert (Hbg : Periodic.bg p = Periodic.Exited) by (apply Hex; lia).
  rewrite Hfg, Hbg, Hst in Hcount. unfold unwaited in Hcount. simpl in Hcount.
  rewrite Hbg in Hwg.
  destruct p as [[nm g lt tm w o [cp bf cl]] bg fg rs st].
  simpl in *. subst fg cl st cp bg w.
  destruct bf; simpl in Hcount; [|lia].
  eexists. split; [reflexivity|]. simpl. auto.
Qed.

Lemma X10_periodic_second_stop_returns_witness :
  exists p',
    run Periodic.step
      [Periodic.CallStop; Periodic.Next; Periodic.Next; Periodic.Next; Periodic.Next]
      (match run Periodic.step
               [Periodic.CallStop; Periodic.Next; Periodic.Next; Periodic.RecvStop;
                Periodic.WgDone; Periodic.Next; Periodic.Next] periodicP with
       | Done p => p
       | _ => periodicP
       end)
    = Done p'
    /\ Periodic.stops p' = 2%nat.
Proof.
  destruct (@X10_periodic_second_stop_returns periodicA
              (map OfPeriodic
                 [Periodic.CallStop; Periodic.Next; Periodic.Next; Periodic.RecvStop;
                  Periodic.WgDone; Periodic.Next; Periodic.Next])
              (match run Periodic.step
                       [Periodic.CallStop; Periodic.Next; Periodic.Next;
                        Periodic.RecvStop; Periodic.WgDone; Periodic.Next;
                        Periodic.Next] periodicP with
               | Done p => p
               | _ => periodicP
               end))
    as (p' & Hrun & _ & Hst & _).
  - exact constructed_periodicA.
  - vm_compute. reflexivity.
  - vm_compute. reflexivity.
  - vm_compute. reflexivity.
  - exists p'. split; [exact Hrun|exact Hst].
Defined.

Lemma third_stop_stuck_step R l p p' :
  third_stop_stuck R p -> Periodic.step l p = Done p' -> third_stop_stuck R p'.
Proof.
  intros (Hfg & Hbg & Hbuf & Hcap & Hcl & Hst & HR) Hs.
  unfold Periodic.step, Periodic.next, Periodic.call, Periodic.sem,
    Periodic.load, Load, Periodic.Ticker_tick, Periodic.emitBarrier, Forward,
    chan.recv, chan.send, chan.offer, chan.has_room, wg_Done, Periodic.Stop in *.
  rewrite Hfg, Hbg in Hs.
  destruct l; step_cases; unfold third_stop_stuck, Periodic.Stop; simpl;
    try (repeat split; auto; fail).
  all: match goal with
       | Hroom : (_ <? _)%nat = true |- _ =>
           rewrite Hbuf, Hcap in Hroom; discriminate
       end.
Qed.

(** X11: a periodic emitter does not survive a third [Stop]: once two have
    returned, the next one blocks on its send for ever: whatever is
    scheduled afterwards, the call is still in progress and has not
    replied. *)
Theorem X11_periodic_third_stop_blocks (e0 e' : emitter) (s s' : list elabel)
        (p : Periodic.proc) :
  constructed e0 ->
  erun s e0 = Done (PeriodicE p) ->
  Periodic.fg p = None ->
  Periodic.stops p = 2%nat ->
  erun (OfPeriodic Periodic.CallStop :: s') (PeriodicE p) = Done e' ->
  calling e' = true
  /\ replies_of e' = Periodic.replies p
  /\ stops_of e' = 2%nat.
Proof.
  intros Hc Hr Hfg Hst Hrun.
  destruct (estop_inv_run _ Hc Hr)
    as [(Hcl & Hcap & _ & Hcount & _) (Hwg & Hex & _ & _)].
  assert (Hbg : Periodic.bg p = Periodic.Exited) by (apply Hex; lia).
  rewrite Hfg, Hbg, Hst in Hcount. unfold unwaited in Hcount. simpl in Hcount.
  apply run_cons_Done in Hrun as (m & Hl & Hrun).
  assert (Hm : exists q, m = PeriodicE q /\ third_stop_stuck (Periodic.replies p) q).
  { unfold estep, Periodic.step, Periodic.call in Hl. rewrite Hfg in Hl.
    simpl in Hl. injection Hl as <-.
    eexists. split; [reflexivity|].
    unfold third_stop_stuck; simpl. repeat split; auto. lia. }
  assert (Hpres : forall l x x',
             (exists q, x = PeriodicE q
                        /\ third_stop_stuck (Periodic.replies p) q) ->
             estep l x = Done x' ->
             exists q, x' = PeriodicE q
                       /\ third_stop_stuck (Periodic.replies p) q).
  { intros [l|l] x x' (q & -> & Hq); simpl; try done.
    destruct (Periodic.step l q) as [q'| |] eqn:E; simpl; try done.
    intros [= <-]. eauto using third_stop_stuck_step. }
  assert (Hfin : exists q, e' = PeriodicE q
                           /\ third_stop_stuck (Periodic.replies p) q).
  { pose proof (run_invariant estep _ Hpres) as HI.
    eapply HI; [exact Hm|exact Hrun]. }
  destruct Hfin as (q & -> & Hfgq & _ & _ & _ & _ & Hstq & HRq).
  simpl. rewrite Hfgq. repeat split; auto.
Qed.

Lemma X11_periodic_third_stop_blocks_witness :
  let stop := [Periodic.CallStop; Periodic.Next; Periodic.Next] in
  let twice := stop ++ [Periodic.RecvStop; Periodic.WgDone; Periodic.Next; Periodic.Next]
               ++ stop ++ [Periodic.Next; Periodic.Next] in
  let p := match run Periodic.step twice periodicP with
           | Done p => p
           | _ => periodicP
           end in
  calling (after [OfPeriodic Periodic.CallStop] (PeriodicE p)) = true.
Proof.
  intros stop twice p.
  refine (proj1 (@X11_periodic_third_stop_blocks periodicA _
                   (map OfPeriodic twice) [] p
                   constructed_periodicA _ _ _ _));
    vm_compute; reflexivity.
Defined.

(** X12: an idle emitter does not survive a second [Stop]: once one has
    returned, the next one, from whatever state and however it is reached,
    panics at [close(n.stopC)]. *)
Theorem X12_idle_second_stop_panics (e0 : emitter) (s : list elabel)
        (p : Idle.proc) :
  constructed e0 ->
  erun s e0 = Done (IdleE p) ->
  Idle.fg p = None ->
  (0 < Idle.stops p)%nat ->
  erun [OfIdle Idle.CallStop; OfIdle Idle.Next] (IdleE p)
  = Panic "close of closed channel".
Proof.
  intros Hc Hr Hfg Hst. eapply idle_second_stop_panics; eauto. lia.
Qed.

Lemma X12_idle_second_stop_panics_witness :
  erun [OfIdle Idle.CallStop; OfIdle Idle.Next]
    (IdleE (idle_after [Idle.CallStop; Idle.Next; Idle.Next; Idle.RecvStop;
                        Idle.WgDone; Idle.Next; Idle.Next] idleP))
  = Panic "close of closed channel".
Proof.
  apply (@X12_idle_second_stop_panics idleA
           (map OfIdle [Idle.CallStop; Idle.Next; Idle.Next; Idle.RecvStop;
                        Idle.WgDone; Idle.Next; Idle.Next])).
  - constructor.
  - vm_compute. reflexivity.
  - vm_compute. reflexivity.
  - vm_compute. lia.
Defined.

(** *** An emitter that has not been stopped *)

Lemma idle_can_emit p (nowT : Time) (verdict : answer) o err :
  idle_inv p -> idle_stop_inv p ->
  chan.closed (Idle.stopC (Idle.obj p)) = false ->
  Forward verdict (Idle.outs (Idle.obj p))
    (NewBarrierMessage (Idle.group (Idle.obj p)) nowT) = Done (o, err) ->
  exists s p',
    run Idle.step s p = Done p'
    /\ emissions (map OfIdle s) = [nowT]
    /\ Idle.lastT (Idle.obj p') = Some nowT
    /\ Idle.outs (Idle.obj p') = o.
Proof.
  intros (_ & _ & _ & Hcap) (_ & _ & Hrun) Hcl HF.
  destruct (Hrun Hcl) as (Hr1 & Hr2 & Harm).
  destruct p as [[nm g i lt [a [cp bf cl']] w o0 sc] bg fg rs st].
  simpl in *. subst cp.
  destruct bg; try done.
  - destruct bf as [|v bf].
    + destruct (Harm eq_refl) as [->|?]; [|done].
      exists [Idle.Expire 0; Idle.RecvTimer; Idle.Emit nowT verdict].
      unfold Idle.step, Idle.Timer_expire, chan.offer, chan.has_room,
        chan.recv, Idle.emitBarrier; simpl.
      rewrite HF. simpl. eexists. split; [reflexivity|simpl; auto].
    + exists [Idle.RecvTimer; Idle.Emit nowT verdict].
      unfold Idle.step, chan.recv, Idle.emitBarrier; simpl.
      rewrite HF. simpl. eexists. split; [reflexivity|simpl; auto].
  - exists [Idle.Emit nowT verdict].
    unfold Idle.step, Idle.emitBarrier; simpl.
    rewrite HF. simpl. eexists. split; [reflexivity|simpl; auto].
  - exists [Idle.Reset; Idle.Expire 0; Idle.RecvTimer; Idle.Emit nowT verdict].
    unfold Idle.step, Idle.Timer_expire, chan.offer, chan.has_room,
      chan.recv, Idle.emitBarrier; simpl.
    rewrite HF. simpl. eexists. split; [reflexivity|simpl; auto].
Qed.

Lemma periodic_can_emit p (nowT : Time) (verdict : answer) o err :
  periodic_inv p -> periodic_stop_inv p ->
  chan.buf (Periodic.stopC (Periodic.obj p)) = [] ->
  received (Periodic.bg p) = 0%nat ->
  Forward verdict (Periodic.outs (Periodic.obj p))
    (NewBarrierMessage (Periodic.group (Periodic.obj p)) nowT) = Done (o, err) ->
  exists s p',
    run Periodic.step s p = Done p'
    /\ emissions (map OfPeriodic s) = [nowT]
    /\ Periodic.lastT (Periodic.obj p') = Some nowT
    /\ Periodic.outs (Periodic.obj p') = o.
Proof.
  intros (_ & _ & _ & Hcap) (_ & _ & _ & Hcount & Hact) Hbuf Hrec HF.
  rewrite Hbuf, Hrec in Hcount. simpl in Hcount.
  assert (Ha : Periodic.active (Periodic.ticker (Periodic.obj p)) = true).
  { destruct Hact as [?|[?|?]]; [done|lia|lia]. }
  destruct p as [[nm g lt [a [cp bf cl']] w o0 sc] bg fg rs st].
  simpl in *. subst cp a.
  destruct bg; try done.
  - exists [Periodic.Tick 0; Periodic.RecvTicker; Periodic.Emit nowT verdict].
    unfold Periodic.step, Periodic.Ticker_tick, chan.offer, chan.has_room,
      chan.recv, Periodic.emitBarrier; simpl.
    destruct bf as [|v [|v' bf]]; simpl;
      rewrite HF; simpl; eexists; (split; [reflexivity|simpl; auto]).
  - exists [Periodic.Emit nowT verdict].
    unfold Periodic.step, Periodic.emitBarrier; simpl.
    rewrite HF. simpl. eexists. split; [reflexivity|simpl; auto].
Qed.

(** X13: an emitter that has not been stopped never goes dead: from
    whatever state it has reached, whatever call is in progress, its
    goroutine can still be scheduled to a next [emitBarrier] (the idle
    timer is armed, or an expiry waits, or the goroutine is about to re-arm
    it; the ticker is active), which stores the clock reading and hands the
    barrier to the output edges: they are left as [Forward] leaves them
    under the answer the edges give. *)
Theorem X13_unstopped_emitter_can_emit (e0 e : emitter) (s : list elabel)
        (nowT : Time) (verdict : answer) (o : list StatsEdge)
        (err : option error) :
  constructed e0 ->
  erun s e0 = Done e ->
  unstopped e = true ->
  Forward verdict (outs_of e) (NewBarrierMessage (group_of e) nowT)
  = Done (o, err) ->
  exists s' e',
    erun s' e = Done e'
    /\ emissions s' = [nowT]
    /\ lastT_of e' = Some nowT
    /\ outs_of e' = o.
Proof.
  intros Hc Hr Hun HF.
  pose proof (estop_inv_run _ Hc Hr) as Hinv.
  destruct e as [p|p]; destruct Hinv as [Hs Hi]; simpl in Hun, HF.
  - apply negb_true_iff in Hun.
    destruct (idle_can_emit nowT verdict Hi Hs Hun HF)
      as (s' & p' & Hrun & He & HT & Ho).
    exists (map OfIdle s'), (IdleE p').
    rewrite erun_idle, Hrun. simpl. auto.
  - apply andb_true_iff in Hun as [Hbuf Hbg].
    apply bool_decide_eq_true in Hbuf.
    assert (Hrec : received (Periodic.bg p) = 0%nat)
      by (destruct (Periodic.bg p); done).
    destruct (periodic_can_emit nowT verdict Hi Hs Hbuf Hrec HF)
      as (s' & p' & Hrun & He & HT & Ho).
    exists (map OfPeriodic s'), (PeriodicE p').
    rewrite erun_periodic, Hrun. simpl. auto.
Qed.

Lemma X13_unstopped_emitter_can_emit_witness :
  let s := [OfIdle (Idle.Expire 10); OfIdle Idle.RecvTimer;
            OfIdle (Idle.Emit 11 Accept);
            OfIdle (Idle.Recv (MPoint {| p_time := 12; p_data := "cpu=1" |}))] in
  exists s' e',
    erun s' (after s idleA) = Done e'
    /\ emissions s' = [20]
    /\ lastT_of e' = Some 20
    /\ outs_of e' = [[NewBarrierMessage groupA 11; NewBarrierMessage groupA 20];
                     [NewBarrierMessage groupA 11]].
Proof.
  intros s.
  apply (@X13_unstopped_emitter_can_emit idleA (after s idleA) s 20
           (Abort 1 "edge aborted") _ (Some "edge aborted")).
  - constructor.
  - vm_compute. reflexivity.
  - vm_compute. reflexivity.
  - vm_compute. reflexivity.
Defined.

(** * Further properties of the node *)

(** What a step of the node does to it: nothing to the node and its
    emitters (the consumer returns), or [NewGroup], or a step of one
    emitter. *)
Lemma wstep_cases l w w' :
  wstep l w = Done w' ->
  (self w' = self w /\ heap w' = heap w)
  \/ (exists group first r, l = Group group first
        /\ NewGroup w group first = Done (Ok (w', r)))
  \/ (exists r e l' e', heap w !! r = Some e /\ estep l' e = Done e'
        /\ heap w' = <[r := e']> (heap w) /\ self w' = self w).
Proof.
  unfold wstep, at_emitter, begin_stopping.
  destruct l as [group first|r m|r l| |]; intros Hs.
  - destruct (bool_decide _ && quiescent w); [|done].
    destruct (NewGroup w group first) as [[[w1 r]|err]| |] eqn:E;
      simpl in Hs; try done; injection Hs as <-.
    + right; left. eauto.
    + left. auto.
  - destruct (bool_decide _ && quiescent w); [|done].
    destruct (heap w !! r) as [e|] eqn:He; [|done].
    destruct (estep (recv_of e m) e) as [e'| |] eqn:E; simpl in Hs; try done.
    injection Hs as <-. right; right. simpl. eauto 10.
  - destruct (enters l); [done|].
    destruct (heap w !! r) as [e|] eqn:He; [|done].
    destruct (estep l e) as [e'| |] eqn:E; simpl in Hs; try done.
    injection Hs as <-. right; right. simpl. eauto 10.
  - destruct (bool_decide _ && quiescent w); [|done].
    injection Hs as <-. left. auto.
  - destruct (stopping w) as [[|r rest]|]; try done.
    destruct (quiescent w); [|done]. simpl in Hs.
    destruct (heap w !! r) as [e|] eqn:He; [|done].
    destruct (estep (stop_of e) e) as [e'| |] eqn:E; simpl in Hs; try done.
    injection Hs as <-. right; right. simpl. eauto 10.
Qed.

(** What [NewGroup] returns when it returns a receiver. *)
Lemma NewGroup_Ok w group first w' r :
  NewGroup w group first = Done (Ok (w', r)) ->
  r = length (heap w)
  /\ exists e, constructed e /\ group_of e = group
       /\ is_idle e = negb (pipeline.Idle (b (self w)) =? 0)
       /\ heap w' = heap w ++ [e]
       /\ barrierStopper (self w') = <[ID group := r]> (barrierStopper (self w))
       /\ b (self w') = b (self w) /\ base (self w') = base (self w)
       /\ stopping w' = stopping w
       /\ outs_of e = outs (base (self w)).
Proof.
  unfold NewGroup, newBarrier, alloc.
  destruct (pipeline.Idle (b (self w)) =? 0) eqn:Ei; simpl.
  - destruct (pipeline.Period (b (self w)) =? 0) eqn:Ep; simpl; [done|].
    destruct (Periodic.newPeriodicBarrier _ _ _ _) as [p| |] eqn:Hp;
      simpl; try done.
    intros [= <- <-]. split; [reflexivity|].
    exists (PeriodicE p). simpl. repeat split; auto.
    + econstructor; eauto.
    + unfold Periodic.newPeriodicBarrier, Periodic.NewTicker in Hp.
      step_cases. reflexivity.
    + unfold Periodic.newPeriodicBarrier, Periodic.NewTicker in Hp.
      step_cases. reflexivity.
  - intros [= <- <-]. split; [reflexivity|].
    eexists. simpl. repeat split; auto. constructor.
Qed.

Lemma estep_kind l e e' : estep l e = Done e' -> is_idle e' = is_idle e.
Proof.
  destruct l as [l|l], e as [p|p]; simpl; try done.
  - destruct (Idle.step l p); simpl; try done. intros [= <-]. reflexivity.
  - destruct (Periodic.step l p); simpl; try done. intros [= <-]. reflexivity.
Qed.

Lemma registered_ok_step l w w' :
  registered_ok w -> wstep l w = Done w' -> registered_ok w'.
Proof.
  intros Hreg Hs.
  destruct (wstep_cases _ _ Hs)
    as [[Hself Hheap]|[(group & first & r & -> & Hnew)
                      |(r & e & l' & e' & He & Hl & Hheap & Hself)]].
  - unfold registered_ok. rewrite Hself, Hheap. exact Hreg.
  - destruct (NewGroup_Ok _ _ _ Hnew)
      as (-> & e & _ & Hg & _ & Hheap & Hbs & _).
    intros id r0. rewrite Hbs, Hheap, lookup_insert.
    destruct (decide (ID group = id)) as [<-|Hne].
    + intros [= <-]. exists e. split; [|congruence].
      apply list_lookup_middle. reflexivity.
    + intros Hr0. destruct (Hreg _ _ Hr0) as (e1 & He1 & Hid).
      exists e1. split; [|exact Hid]. apply lookup_app_l_Some, He1.
  - intros id r0. rewrite Hself, Hheap. intros Hr0.
    destruct (Hreg _ _ Hr0) as (e1 & He1 & Hid).
    destruct (decide (r = r0)) as [<-|Hne].
    + exists e'. split.
      * apply list_lookup_insert_eq. eapply lookup_lt_Some; eauto.
      * destruct (estep_effect _ _ Hl) as (_ & _ & _ & Hg & _).
        rewrite Hg. congruence.
    + exists e1. split; [|exact Hid]. rewrite list_lookup_insert_ne; auto.
Qed.

Lemma stoppers_NoDup w : registered_ok w -> NoDup (stoppers (self w)).
Proof.
  intros Hreg.
  unfold stoppers. apply NoDup_fmap_2_strong; [|apply NoDup_map_to_list].
  intros [id1 r1] [id2 r2] H1 H2 Heq. simpl in Heq. subst r2.
  apply elem_of_map_to_list in H1, H2.
  destruct (Hreg _ _ H1) as (e1 & He1 & <-).
  destruct (Hreg _ _ H2) as (e2 & He2 & <-).
  congruence.
Qed.

(** X14: in every state of a node, each stop function in [barrierStopper]
    is the [Stop] of an emitter the node created, of the very group it is
    registered under; and no two groups share one: the stop functions
    [stopBarrierEmitter] ranges over are pairwise different. *)
Theorem X14_stop_functions_well_formed
        (t : ExecutingTask) (n : pipeline.BarrierNode) (d : NodeDiagnostic)
        (bn : BarrierNode) (s : list wlabel) (w : world) :
  newBarrierNode t n d = Ok bn ->
  wrun s (start bn) = Done w ->
  registered_ok w /\ NoDup (stoppers (self w)).
Proof.
  intros Hbn Hr. apply newBarrierNode_Ok in Hbn as [_ ->].
  assert (Hreg : registered_ok w).
  { pose proof (run_invariant wstep registered_ok registered_ok_step) as HI.
    eapply HI; [|exact Hr]. intros id r. simpl. rewrite lookup_empty. done. }
  split; [exact Hreg|]. apply stoppers_NoDup, Hreg.
Qed.

Lemma X14_stop_functions_well_formed_witness :
  let s := [Group groupA {| Name := "cpu" |};
            Group {| ID := "host=b"; Tags := [] |} {| Name := "cpu" |};
            Deliver 0%nat (MDeleteGroup {| dg_id := "host=a" |});
            Sched 0%nat (OfIdle Idle.Next); Sched 0%nat (OfIdle Idle.Next);
            Sched 0%nat (OfIdle Idle.RecvStop); Sched 0%nat (OfIdle Idle.WgDone);
            Sched 0%nat (OfIdle Idle.Next); Sched 0%nat (OfIdle Idle.Next);
            Group groupA {| Name := "cpu" |}] in
  registered_ok (wafter s (start (nodeA 5 0)))
  /\ NoDup (stoppers (self (wafter s (start (nodeA 5 0))))).
Proof.
  intros s.
  apply (@X14_stop_functions_well_formed
           "task" {| pipeline.Idle := 5; pipeline.Period := 0 |} []
           (nodeA 5 0) s (wafter s (start (nodeA 5 0)))).
  - vm_compute. reflexivity.
  - vm_compute. reflexivity.
Defined.

Lemma heap_kinds bn0 s w :
  wrun s (start bn0) = Done w ->
  b (self w) = b bn0
  /\ forall r e, heap w !! r = Some e ->
                 is_idle e = negb (pipeline.Idle (b bn0) =? 0).
Proof.
  intros Hr.
  pose proof (run_invariant wstep
    (fun x => b (self x) = b bn0
              /\ forall r e, heap x !! r = Some e ->
                             is_idle e = negb (pipeline.Idle (b bn0) =? 0))) as HI.
  simpl in HI. refine (HI _ _ _ _ _ Hr);
    [|split; [reflexivity|intros r e; simpl; rewrite lookup_nil; done]].
  clear. intros l w w' [Hb Hk] Hs.
  destruct (wstep_self _ _ Hs) as [Hb' _]. split; [congruence|].
  destruct (wstep_cases _ _ Hs)
    as [[Hself Hheap]|[(group & first & r & -> & Hnew)
                      |(r & e & l' & e' & He & Hl & Hheap & Hself)]].
  - rewrite Hheap. exact Hk.
  - destruct (NewGroup_Ok _ _ _ Hnew) as (-> & e & _ & _ & Hi & Hheap & _).
    rewrite Hheap. intros r0 e0 Hr0.
    apply lookup_app_Some in Hr0 as [Hr0|[_ Hr0]]; [eauto|].
    apply list_lookup_singleton_Some in Hr0 as [_ <-]. congruence.
  - rewrite Hheap. intros r0 e0 Hr0.
    destruct (decide (r = r0)) as [<-|Hne].
    + rewrite list_lookup_insert_eq in Hr0 by (eapply lookup_lt_Some; eauto).
      injection Hr0 as <-. rewrite (estep_kind _ _ Hl). eauto.
    + rewrite list_lookup_insert_ne in Hr0 by auto. eauto.
Qed.

(** X15: a node never mixes kinds: with a non-zero idle every emitter it
    ever creates is an idle emitter, with a zero idle every one is a
    periodic emitter, in every state the node reaches. *)
Theorem X15_one_kind_of_emitter
        (t : ExecutingTask) (n : pipeline.BarrierNode) (d : NodeDiagnostic)
        (bn : BarrierNode) (s : list wlabel) (w : world) (r : nat) (e : emitter) :
  newBarrierNode t n d = Ok bn ->
  wrun s (start bn) = Done w ->
  heap w !! r = Some e ->
  is_idle e = negb (pipeline.Idle n =? 0).
Proof.
  intros Hbn Hr. apply newBarrierNode_Ok in Hbn as [_ ->].
  apply (proj2 (@heap_kinds _ _ _ Hr)).
Qed.

Lemma X15_one_kind_of_emitter_witness :
  let s := [Group groupA {| Name := "cpu" |};
            Group {| ID := "host=b"; Tags := [] |} {| Name := "cpu" |}] in
  is_idle (default periodicA (heap (wafter s (start (nodeA 0 7))) !! 1%nat))
  = negb (0 =? 0).
Proof.
  intros s.
  apply (@X15_one_kind_of_emitter
           "task" {| pipeline.Idle := 0; pipeline.Period := 7 |} []
           (nodeA 0 7) s (wafter s (start (nodeA 0 7))) 1%nat).
  - vm_compute. reflexivity.
  - vm_compute. reflexivity.
  - vm_compute. reflexivity.
Defined.

(** X16: [NewGroup] allocates one emitter, as its constructor returns it
    and of the group given, at the next free address, leaves every earlier
    emitter in place, and registers its stop function under the group's id:
    a stop function registered for the same id before is replaced, those of
    the other ids stay. *)
Theorem X16_new_group_registers (w w' : world) (group : GroupInfo)
        (first : PointMeta) (r : nat) :
  NewGroup w group first = Done (Ok (w', r)) ->
  heap w !! r = None
  /\ (exists e, heap w' !! r = Some e /\ constructed e /\ group_of e = group)
  /\ length (heap w') = S (length (heap w))
  /\ (forall i e, heap w !! i = Some e -> heap w' !! i = Some e)
  /\ (forall id, barrierStopper (self w') !! id =
                 if decide (ID group = id) then Some r
                 else barrierStopper (self w) !! id).
Proof.
  intros Hnew.
  destruct (NewGroup_Ok _ _ _ Hnew) as (-> & e & Hc & Hg & _ & Hheap & Hbs & _).
  rewrite Hheap, Hbs. repeat split.
  - apply lookup_ge_None. lia.
  - exists e. split; [|auto]. apply list_lookup_middle. reflexivity.
  - rewrite length_app. simpl. lia.
  - intros i e1 He1. apply lookup_app_l_Some, He1.
  - intros id. apply lookup_insert.
Qed.

Lemma X16_new_group_registers_witness :
  let w := wafter [Group groupA {| Name := "cpu" |}] (start (nodeA 5 0)) in
  let group := {| ID := "host=b"; Tags := [] |} in
  let w' := wafter [Group group {| Name := "mem" |}] w in
  heap w !! 1%nat = None
  /\ (exists e, heap w' !! 1%nat = Some e /\ constructed e /\ group_of e = group)
  /\ length (heap w') = S (length (heap w))
  /\ (forall i e, heap w !! i = Some e -> heap w' !! i = Some e)
  /\ (forall id, barrierStopper (self w') !! id =
                 if decide (ID group = id) then Some 1%nat
                 else barrierStopper (self w) !! id).
Proof.
  intros w group w'.
  apply (@X16_new_group_registers w w' group {| Name := "mem" |} 1%nat).
  vm_compute. reflexivity.
Defined.

(** *** Shutdown *)

Lemma forallb_insert {A} (f : A -> bool) (l : list A) (i : nat) (x : A) :
  forallb f l = true -> f x = true -> forallb f (<[i := x]> l) = true.
Proof.
  revert i. induction l as [|y l IH]; intros i Hl Hx; [done|].
  simpl in Hl. apply andb_true_iff in Hl as [Hy Hl].
  destruct i as [|i]; simpl; apply andb_true_iff; auto.
Qed.

Lemma forallb_lookup {A} (f : A -> bool) (l : list A) (i : nat) (x : A) :
  forallb f l = true -> l !! i = Some x -> f x = true.
Proof.
  revert i. induction l as [|y l IH]; intros i Hl Hx; [done|].
  simpl in Hl. apply andb_true_iff in Hl as [Hy Hl].
  destruct i as [|i]; simpl in Hx; [congruence|eauto].
Qed.

Lemma run_app {L S} (step : L -> S -> outcome S) (s1 s2 : list L) : forall p q,
  run step s1 p = Done q -> run step (s1 ++ s2) p = run step s2 q.
Proof.
  induction s1 as [|l s1 IH]; intros p q; simpl.
  - intros [= <-]. reflexivity.
  - destruct (step l p) as [m| |]; simpl; [apply IH|done|done].
Qed.

(** The statements of one emitter, run inside the node. *)
Lemma wrun_sched r s : forall w e e',
  heap w !! r = Some e -> erun s e = Done e' ->
  forallb (fun l => negb (enters l)) s = true ->
  wrun (map (Sched r) s) w
  = Done {| self := self w; heap := <[r := e']> (heap w);
            stopping := stopping w |}.
Proof.
  induction s as [|l s IH]; intros w e e' He Hr Hen.
  - injection Hr as <-. rewrite list_insert_id by done. destruct w; reflexivity.
  - simpl in Hen. apply andb_true_iff in Hen as [Hl Hen].
    apply negb_true_iff in Hl.
    apply run_cons_Done in Hr as (m & Hm & Hr).
    change (wrun (map (Sched r) (l :: s)) w)
      with (w1 ← wstep (Sched r l) w; wrun (map (Sched r) s) w1).
    unfold wstep, at_emitter. rewrite Hl, He, Hm. simpl.
    erewrite IH; [|simpl; apply list_lookup_insert_eq;
                    eapply lookup_lt_Some; eauto|exact Hr|exact Hen].
    simpl. rewrite list_insert_insert_eq. reflexivity.
Qed.

Lemma heap_estop_inv_step l w w' :
  (forall r e, heap w !! r = Some e -> estop_inv e) ->
  wstep l w = Done w' ->
  forall r e, heap w' !! r = Some e -> estop_inv e.
Proof.
  intros Hinv Hs.
  destruct (wstep_cases _ _ Hs)
    as [[Hself Hheap]|[(group & first & r & -> & Hnew)
                      |(r & e & l' & e' & He & Hl & Hheap & Hself)]].
  - rewrite Hheap. exact Hinv.
  - destruct (NewGroup_Ok _ _ _ Hnew) as (-> & e & Hc & _ & _ & Hheap & _).
    rewrite Hheap. intros r0 e0 Hr0.
    apply lookup_app_Some in Hr0 as [Hr0|[_ Hr0]]; [eauto|].
    apply list_lookup_singleton_Some in Hr0 as [_ <-].
    apply estop_inv_constructed, Hc.
  - rewrite Hheap. intros r0 e0 Hr0.
    destruct (decide (r = r0)) as [<-|Hne].
    + rewrite list_lookup_insert_eq in Hr0 by (eapply lookup_lt_Some; eauto).
      injection Hr0 as <-. eapply estop_inv_step; eauto.
    + rewrite list_lookup_insert_ne in Hr0 by auto. eauto.
Qed.

(** The loop of [stopBarrierEmitter] over stop functions that are all
    different and all of emitters not stopped before. *)
Lemma stop_loop rest : forall w,
  stopping w = Some rest -> NoDup rest -> quiescent w = true ->
  (forall r, r ∈ rest ->
     exists e, heap w !! r = Some e /\ estop_inv e /\ unstopped e = true) ->
  exists s w',
    wrun s w = Done w' /\ stopping w' = Some [] /\ self w' = self w
    /\ quiescent w' = true
    /\ (forall r, r ∈ rest ->
          exists e', heap w' !! r = Some e' /\ exited e' = true
                     /\ stops_of e' = 1%nat)
    /\ (forall r, r ∉ rest -> heap w' !! r = heap w !! r).
Proof.
  induction rest as [|r rest IH]; intros w Hst Hnd Hq Hreg.
  - exists [], w. repeat split; auto. intros r Hr. inversion Hr.
  - apply NoDup_cons in Hnd as [Hr Hnd].
    destruct (Hreg r) as (e & He & Hinv & Hun); [left|].
    assert (Hcall : calling e = false).
    { apply negb_true_iff.
      exact (forallb_lookup (fun e => negb (calling e)) _ _ Hq He). }
    destruct (@stop_schedule e Hinv Hcall Hun) as (s' & c & Hen & Hall).
    destruct (Hall None)
      as (e1 & e' & H1 & Hrun & Hcall' & Hex & Hstops & _).
    rewrite <- stop_of_call in H1.
    set (w1 := {| self := self w; heap := <[r := e1]> (heap w);
                  stopping := Some rest |}).
    set (w2 := {| self := self w; heap := <[r := e']> (heap w);
                  stopping := Some rest |}).
    assert (Hlt : (r < length (heap w))%nat) by (eapply lookup_lt_Some; eauto).
    assert (Hw1 : wstep StopNext w = Done w1).
    { unfold wstep, at_emitter. rewrite Hst, Hq. simpl. rewrite He, H1.
      reflexivity. }
    assert (Hw2 : wrun (map (Sched r) s') w1 = Done w2).
    { erewrite wrun_sched; [|apply list_lookup_insert_eq; exact Hlt
                            |exact Hrun|exact Hen].
      unfold w1, w2. simpl. rewrite list_insert_insert_eq. reflexivity. }
    destruct (IH w2) as (s2 & w' & Hrun2 & Hst' & Hself & Hq' & Hin & Hout).
    + reflexivity.
    + exact Hnd.
    + apply forallb_insert; [exact Hq|]. rewrite Hcall'. reflexivity.
    + intros r0 Hr0. destruct (Hreg r0) as (e0 & He0 & ?); [right; exact Hr0|].
      exists e0. split; [|assumption]. simpl.
      rewrite list_lookup_insert_ne; [exact He0|]. intros ->. contradiction.
    + exists (StopNext :: map (Sched r) s' ++ s2), w'. split; [|split; [|split; [|split; [|split]]]].
      * change (wrun (StopNext :: map (Sched r) s' ++ s2) w)
          with (x ← wstep StopNext w; wrun (map (Sched r) s' ++ s2) x).
        rewrite Hw1. simpl. unfold wrun.
        rewrite (run_app wstep _ s2 _ Hw2). exact Hrun2.
      * exact Hst'.
      * rewrite Hself. reflexivity.
      * exact Hq'.
      * intros r0 Hr0. apply elem_of_cons in Hr0 as [->|Hr0]; [|auto].
        exists e'. rewrite (Hout r Hr). simpl.
        rewrite list_lookup_insert_eq by exact Hlt. auto.
      * intros r0 Hr0. apply not_elem_of_cons in Hr0 as [Hne Hr0].
        rewrite (Hout r0 Hr0). simpl. apply list_lookup_insert_ne. auto.
Qed.

(** X17: when [Consume] returns with no call in progress and no registered
    emitter stopped before, the deferred [stopBarrierEmitter] can run to
    its end: there is a schedule in which every registered stop function
    is called and returns, none panics, and each registered emitter is left
    with its goroutine gone and its [Stop] returned exactly once. *)
Theorem X17_shutdown_stops_registered_emitters
        (t : ExecutingTask) (n : pipeline.BarrierNode) (d : NodeDiagnostic)
        (bn : BarrierNode) (s : list wlabel) (w : world) :
  newBarrierNode t n d = Ok bn ->
  wrun s (start bn) = Done w ->
  stopping w = None ->
  quiescent w = true ->
  registered_unstopped w = true ->
  exists s' w',
    wrun (ConsumeEnd :: s') w = Done w'
    /\ stopping w' = Some []
    /\ quiescent w' = true
    /\ barrierStopper (self w') = barrierStopper (self w)
    /\ forall id r, barrierStopper (self w) !! id = Some r ->
         exists e', heap w' !! r = Some e' /\ exited e' = true
                    /\ stops_of e' = 1%nat.
Proof.
  intros Hbn Hr Hst Hq Hun. apply newBarrierNode_Ok in Hbn as [_ ->].
  assert (Hreg : registered_ok w).
  { pose proof (run_invariant wstep registered_ok registered_ok_step) as HI.
    eapply HI; [|exact Hr]. intros id r. simpl. rewrite lookup_empty. done. }
  assert (Hinv : forall r e, heap w !! r = Some e -> estop_inv e).
  { pose proof (run_invariant wstep
        (fun x => forall r e, heap x !! r = Some e -> estop_inv e)
        heap_estop_inv_step) as HI.
    simpl in HI. eapply HI; [|exact Hr].
    intros r e. simpl. rewrite lookup_nil. done. }
  destruct (@stop_loop (stoppers (self w)) (begin_stopping w))
    as (s' & w' & Hrun & Hst' & Hself & Hq' & Hin & _).
  - reflexivity.
  - apply stoppers_NoDup, Hreg.
  - exact Hq.
  - intros r Hr0. simpl.
    assert (Hr1 := Hr0). unfold stoppers in Hr1.
    apply list_elem_of_fmap in Hr1 as ([id r1] & -> & Hid).
    apply elem_of_map_to_list in Hid. simpl.
    destruct (Hreg _ _ Hid) as (e & He & _).
    exists e. split; [exact He|]. split; [eauto|].
    unfold registered_unstopped in Hun. rewrite forallb_forall in Hun.
    specialize (Hun r1). rewrite He in Hun. apply Hun.
    apply list_elem_of_In. exact Hr0.
  - exists s', w'. split; [|split; [|split; [|split]]].
    + change (wrun (ConsumeEnd :: s') w)
        with (x ← wstep ConsumeEnd w; wrun s' x).
      unfold wstep. rewrite Hst, Hq. simpl. exact Hrun.
    + exact Hst'.
    + exact Hq'.
    + rewrite Hself. reflexivity.
    + intros id r Hid. apply Hin. unfold stoppers.
      apply list_elem_of_fmap. exists (id, r). split; [reflexivity|].
      apply elem_of_map_to_list. exact Hid.
Qed.

Lemma X17_shutdown_stops_registered_emitters_witness :
  let s := [Group groupA {| Name := "cpu" |};
            Group {| ID := "host=b"; Tags := [] |} {| Name := "cpu" |};
            Deliver 0%nat (MDeleteGroup {| dg_id := "host=a" |});
            Sched 0%nat (OfIdle Idle.Next); Sched 0%nat (OfIdle Idle.Next);
            Sched 0%nat (OfIdle Idle.RecvStop); Sched 0%nat (OfIdle Idle.WgDone);
            Sched 0%nat (OfIdle Idle.Next); Sched 0%nat (OfIdle Idle.Next);
            Group groupA {| Name := "cpu" |}] in
  let w := wafter s (start (nodeA 5 0)) in
  exists s' w',
    wrun (ConsumeEnd :: s') w = Done w'
    /\ stopping w' = Some []
    /\ quiescent w' = true
    /\ barrierStopper (self w') = barrierStopper (self w)
    /\ forall id r, barrierStopper (self w) !! id = Some r ->
         exists e', heap w' !! r = Some e' /\ exited e' = true
                    /\ stops_of e' = 1%nat.
Proof.
  intros s w.
  apply (@X17_shutdown_stops_registered_emitters
           "task" {| pipeline.Idle := 5; pipeline.Period := 0 |} []
           (nodeA 5 0) s w).
  - vm_compute. reflexivity.
  - vm_compute. reflexivity.
  - vm_compute. reflexivity.
  - vm_compute. reflexivity.
  - vm_compute. reflexivity.
Defined.

(** *** Panics of the node *)

Lemma wstep_Panic l w why :
  wstep l w = Panic why ->
  (exists group first, l = Group group first
                       /\ NewGroup w group first = Panic why)
  \/ (exists r e l', heap w !! r = Some e /\ estep l' e = Panic why
        /\ (l = Sched r l'
            \/ (exists m, l = Deliver r m /\ l' = recv_of e m)
            \/ (l = StopNext /\ l' = stop_of e))).
Proof.
  unfold wstep, at_emitter, begin_stopping.
  destruct l as [group first|r m|r l| |]; intros Hs.
  - destruct (bool_decide _ && quiescent w); [|done].
    destruct (NewGroup w group first) as [[[w1 r]|err]| |] eqn:E;
      simpl in Hs; try done. injection Hs as <-. left. eauto.
  - destruct (bool_decide _ && quiescent w); [|done].
    destruct (heap w !! r) as [e|] eqn:He; [|done].
    destruct (estep (recv_of e m) e) as [e'| |] eqn:E; simpl in Hs; try done.
    injection Hs as <-. right. eauto 10.
  - destruct (enters l); [done|].
    destruct (heap w !! r) as [e|] eqn:He; [|done].
    destruct (estep l e) as [e'| |] eqn:E; simpl in Hs; try done.
    injection Hs as <-. right. eauto 10.
  - destruct (bool_decide _ && quiescent w); done.
  - destruct (stopping w) as [[|r rest]|]; try done.
    destruct (quiescent w); [|done]. simpl in Hs.
    destruct (heap w !! r) as [e|] eqn:He; [|done].
    destruct (estep (stop_of e) e) as [e'| |] eqn:E; simpl in Hs; try done.
    injection Hs as <-. right. eauto 10.
Qed.

Lemma estep_outs_length l e e' :
  estep l e = Done e' -> length (outs_of e') = length (outs_of e).
Proof.
  intros Hl. apply (@outs_run [l] e e' 0%nat).
  unfold erun. simpl. rewrite Hl. reflexivity.
Qed.

(** Every emitter of a node has the output edges the node was given. *)
Lemma heap_outs bn0 s w :
  wrun s (start bn0) = Done w ->
  forall r e, heap w !! r = Some e ->
              length (outs_of e) = length (outs (base bn0)).
Proof.
  intros Hr.
  pose proof (run_invariant wstep
    (fun x => base (self x) = base bn0
              /\ forall r e, heap x !! r = Some e ->
                             length (outs_of e) = length (outs (base bn0)))) as HI.
  simpl in HI. refine (proj2 (HI _ _ _ _ _ Hr));
    [|split; [reflexivity|intros r e; simpl; rewrite lookup_nil; done]].
  clear. intros l w w' [Hb Hk] Hs.
  destruct (wstep_self _ _ Hs) as [_ Hb']. split; [congruence|].
  destruct (wstep_cases _ _ Hs)
    as [[Hself Hheap]|[(group & first & r & -> & Hnew)
                      |(r & e & l' & e' & He & Hl & Hheap & Hself)]].
  - rewrite Hheap. exact Hk.
  - destruct (NewGroup_Ok _ _ _ Hnew)
      as (-> & e & _ & _ & _ & Hheap & _ & _ & _ & _ & Ho).
    rewrite Hheap. intros r0 e0 Hr0.
    apply lookup_app_Some in Hr0 as [Hr0|[_ Hr0]]; [eauto|].
    apply list_lookup_singleton_Some in Hr0 as [_ <-]. congruence.
  - rewrite Hheap. intros r0 e0 Hr0.
    destruct (decide (r = r0)) as [<-|Hne].
    + rewrite list_lookup_insert_eq in Hr0 by (eapply lookup_lt_Some; eauto).
      injection Hr0 as <-. rewrite (estep_outs_length _ _ Hl). eauto.
    + rewrite list_lookup_insert_ne in Hr0 by auto. eauto.
Qed.

Lemma NewGroup_negative_period w group first :
  pipeline.Idle (b (self w)) = 0 ->
  pipeline.Period (b (self w)) < 0 ->
  NewGroup w group first = Panic "non-positive interval for NewTicker".
Proof.
  intros Hi Hp.
  unfold NewGroup, newBarrier, Periodic.newPeriodicBarrier, Periodic.NewTicker.
  rewrite Hi. simpl.
  destruct (Z.eqb_spec (pipeline.Period (b (self w))) 0); [lia|]. simpl.
  destruct (Z.leb_spec (pipeline.Period (b (self w))) 0); [reflexivity|lia].
Qed.

(** X18: [newBarrierNode] only rejects a configuration whose idle and
    period are both zero, so a zero idle with a negative period passes; the
    node then never gets an emitter: every [NewGroup] panics inside
    [time.NewTicker], whatever the group and whatever happened before. *)
Theorem X18_negative_period_panics
        (t : ExecutingTask) (n : pipeline.BarrierNode) (d : NodeDiagnostic)
        (bn : BarrierNode) (s : list wlabel) (w : world)
        (group : GroupInfo) (first : PointMeta) :
  newBarrierNode t n d = Ok bn ->
  pipeline.Idle n = 0 ->
  pipeline.Period n < 0 ->
  wrun s (start bn) = Done w ->
  NewGroup w group first = Panic "non-positive interval for NewTicker"
  /\ heap w = [] /\ barrierStopper (self w) = ∅.
Proof.
  intros Hbn Hi Hp Hr. apply newBarrierNode_Ok in Hbn as [_ ->].
  pose proof (run_invariant wstep
    (fun x => b (self x) = n /\ heap x = [] /\ barrierStopper (self x) = ∅))
    as HI.
  simpl in HI. destruct (HI) with (2 := conj (eq_refl n) (conj (eq_refl (@nil emitter)) (eq_refl (∅ : gmap GroupID nat)))) (3 := Hr)
    as (Hb & Hh & Hbs).
  - clear - Hi Hp. intros l x x' (Hb & Hh & Hbs) Hs.
    destruct (wstep_cases _ _ Hs)
      as [[Hself Hheap]|[(group & first & r & -> & Hnew)
                        |(r & e & l' & e' & He & _)]].
    + rewrite Hself, Hheap. auto.
    + rewrite NewGroup_negative_period in Hnew by (rewrite Hb; assumption).
      discriminate.
    + rewrite Hh, lookup_nil in He. discriminate.
  - split; [|auto]. apply NewGroup_negative_period; rewrite Hb; assumption.
Qed.

Lemma X18_negative_period_panics_witness :
  let s := [ConsumeEnd] in
  let w := wafter s (start (nodeA 0 (-3))) in
  NewGroup w groupA {| Name := "cpu" |}
  = Panic "non-positive interval for NewTicker"
  /\ heap w = [] /\ barrierStopper (self w) = ∅.
Proof.
  intros s w.
  apply (@X18_negative_period_panics
           "task" {| pipeline.Idle := 0; pipeline.Period := -3 |} []
           (nodeA 0 (-3)) s w groupA {| Name := "cpu" |}).
  - vm_compute. reflexivity.
  - reflexivity.
  - vm_compute. reflexivity.
  - vm_compute. reflexivity.
Defined.

(** X19: a node with zero idle and a positive period panics in one place
    only: where the goroutine of one of its emitters runs [emitBarrier] and
    [Forward] meets a closed output edge.  [NewGroup], the handlers and
    [stopBarrierEmitter] never panic, also where the latter calls the
    [Stop] of an emitter a [DeleteGroup] has stopped before. *)
Theorem X19_periodic_node_only_panic
        (t : ExecutingTask) (n : pipeline.BarrierNode) (d : NodeDiagnostic)
        (bn : BarrierNode) (es : list StatsEdge) (s : list wlabel) (w : world)
        (l : wlabel) (why : string) :
  newBarrierNode t n d = Ok bn ->
  pipeline.Idle n = 0 ->
  0 < pipeline.Period n ->
  wrun s (start (link es bn)) = Done w ->
  wstep l w = Panic why ->
  exists r e nowT k,
    heap w !! r = Some e
    /\ l = Sched r (emit_of e nowT (ClosedAt k))
    /\ (k < length es)%nat
    /\ why = "send on closed channel"%string.
Proof.
  intros Hbn Hi Hp Hr Hpanic. apply newBarrierNode_Ok in Hbn as [_ ->].
  destruct (@heap_kinds _ _ _ Hr) as [Hb Hk]. simpl in Hb, Hk.
  pose proof (@heap_outs _ _ _ Hr) as Hlen. simpl in Hlen.
  assert (Hinv : forall r e, heap w !! r = Some e -> estop_inv e).
  { pose proof (run_invariant wstep
        (fun x => forall r e, heap x !! r = Some e -> estop_inv e)
        heap_estop_inv_step) as HI.
    simpl in HI. eapply HI; [|exact Hr].
    intros r e. simpl. rewrite lookup_nil. done. }
  destruct (wstep_Panic _ _ Hpanic)
    as [(group & first & -> & HN)|(r & e & l' & He & HP & Hl)].
  - exfalso.
    unfold NewGroup, newBarrier, Periodic.newPeriodicBarrier,
      Periodic.NewTicker in HN.
    rewrite Hb, Hi in HN. simpl in HN.
    destruct (Z.eqb_spec (pipeline.Period n) 0); [lia|]. simpl in HN.
    destruct (Z.leb_spec (pipeline.Period n) 0); [lia|]. simpl in HN.
    discriminate.
  - specialize (Hk _ _ He). specialize (Hinv _ _ He). specialize (Hlen _ _ He).
    rewrite Hi in Hk. destruct e as [p|p]; [discriminate|].
    destruct Hinv as [[Hopen _] Hpi].
    destruct l' as [l'|l']; simpl in HP; [discriminate|].
    destruct (Periodic.step l' p) as [q| |] eqn:E; simpl in HP; try done.
    injection HP as ->.
    destruct (periodic_step_panic _ Hpi Hopen E) as (nowT & k & -> & Hlt & ->).
    simpl in Hlen. rewrite Hlen in Hlt.
    destruct Hl as [->|[(m & _ & Hm)|[_ Hm]]]; [|discriminate Hm..].
    exists r, (PeriodicE p), nowT, k. auto.
Qed.

Lemma X19_periodic_node_only_panic_witness :
  let s := [Group groupA {| Name := "cpu" |};
            Sched 0%nat (OfPeriodic (Periodic.Tick 10));
            Sched 0%nat (OfPeriodic Periodic.RecvTicker)] in
  let w := wafter s (start (link [[]; []] (nodeA 0 7))) in
  exists r e nowT k,
    heap w !! r = Some e
    /\ Sched 0%nat (OfPeriodic (Periodic.Emit 11 (ClosedAt 1)))
       = Sched r (emit_of e nowT (ClosedAt k))
    /\ (k < 2)%nat
    /\ "send on closed channel"%string = "send on closed channel"%string.
Proof.
  intros s w.
  apply (@X19_periodic_node_only_panic
           "task" {| pipeline.Idle := 0; pipeline.Period := 7 |} []
           (nodeA 0 7) [[]; []] s w
           (Sched 0%nat (OfPeriodic (Periodic.Emit 11 (ClosedAt 1))))).
  - vm_compute. reflexivity.
  - reflexivity.
  - vm_compute. reflexivity.
  - vm_compute. reflexivity.
  - vm_compute. reflexivity.
Defined.
